(** * The 2048 engine of [_2048游戏.py]: board, move, spawn, game-over

    A shallow embedding of class [Game2048] (methods [reset],
    [add_new_tile], [move], [is_game_over]) and the properties of its
    slide/merge algorithm.

    Modelling choices, all taken from the source:
    - the board is the [SIZE] x [SIZE] numpy array [self.board], here a list
      of rows; [.T] and [np.fliplr] return views, and the row writes
      [self.board[i] = new_row] go through the view to the one buffer, so a
      view is the board re-indexed and the write-back is the inverse
      re-indexing;
    - the array has numpy's default integer type ([dtype=int], 64 bits on
      Linux and macOS and on every platform since NumPy 2): arithmetic on
      cells, and on the score once a numpy scalar has been added to it,
      wraps around, which [wrap] writes out;
    - [random.choice] and [random.random() < 0.9] are read from an
      explicit draw passed to the operation;
    - Python exceptions are the [Raise] outcomes of the [result] type. *)

From Stdlib Require Import ZArith List Lia Bool Sorted.
From stdpp Require Import base list gmap strings pretty.
Import ListNotations.
Local Open Scope Z_scope.

(** ** Outcomes of a call: a value or a raised exception *)

Inductive exn : Type :=
| IndexError.

Inductive result (A : Type) : Type :=
| Ok (a : A)
| Raise (e : exn).
Arguments Ok {A} a.
Arguments Raise {A} e.

Global Instance result_ret : MRet result := fun A a => Ok a.

Global Instance result_bind : MBind result := fun A B k r =>
  match r with
  | Ok a => k a
  | Raise e => Raise e
  end.

(** ** Constants and machine integers *)

Definition SIZE : nat := 4.

Definition INT_BITS : Z := 64.

(** Two's-complement wrap-around of a numpy [int64] result. *)
Definition wrap (z : Z) : Z :=
  (z + 2 ^ (INT_BITS - 1)) mod 2 ^ INT_BITS - 2 ^ (INT_BITS - 1).

(** ** The board *)

Abbreviation Board := (list (list Z)).

Record Game : Type := mkGame {
  board : Board;
  score : Z;
  game_over : bool
}.

(** [self.board[i][j]] *)
Definition cell (b : Board) (i j : nat) : Z := (b !!! i) !!! j.

(** An array given by its entries, [SIZE] rows of [SIZE] cells. *)
Definition tabulate (f : nat -> nat -> Z) : Board :=
  map (fun i => map (fun j => f i j) (seq 0 SIZE)) (seq 0 SIZE).

(** [np.zeros((SIZE, SIZE), dtype=int)] *)
Definition zeros : Board := tabulate (fun _ _ => 0).

(** [b.T]: entry (i, j) of the view is entry (j, i) of [b]. *)
Definition transpose (b : Board) : Board :=
  tabulate (fun i j => cell b j i).

(** [np.fliplr(b)]: entry (i, j) of the view is entry (i, SIZE-1-j). *)
Definition fliplr (b : Board) : Board :=
  tabulate (fun i j => cell b i (SIZE - 1 - j)).

(** [np.array_equal(a, b)] on two integer arrays. *)
Definition array_equal (a b : Board) : bool :=
  bool_decide (a = b).

(** ** [move]: the slide/merge of one row *)

(** [row[row != 0]]: boolean-mask indexing, always a fresh array. *)
Definition non_zeros (row : list Z) : list Z :=
  List.filter (fun v => negb (v =? 0)) row.

(** One iteration of [for j in range(len(non_zero) - 1)]:
<<
    if non_zero[j] == non_zero[j + 1]:
        non_zero[j] *= 2
        non_zero[j + 1] = 0
        self.score += non_zero[j]
>>
    Both indices are below [len(non_zero)] by the loop bound. *)
Definition merge_step (st : list Z * Z) (j : nat) : list Z * Z :=
  let '(non_zero, score) := st in
  if (non_zero !!! j) =? (non_zero !!! (j + 1)%nat) then
    let non_zero := <[j := wrap (non_zero !!! j * 2)]> non_zero in
    let non_zero := <[(j + 1)%nat := 0]> non_zero in
    (non_zero, wrap (score + non_zero !!! j))
  else st.

Definition merge_loop (non_zero : list Z) (score : Z) : list Z * Z :=
  fold_left merge_step (seq 0 (length non_zero - 1)) (non_zero, score).

(** The body of [for i in range(SIZE)] on the row [row = self.board[i]]:
    compaction, merge scan, compaction, and the padded [new_row]. *)
Definition slide_row (row : list Z) (score : Z) : list Z * Z :=
  let non_zero := non_zeros row in
  let '(non_zero, score) := merge_loop non_zero score in
  let non_zero := non_zeros non_zero in
  let new_row := non_zero ++ repeat 0 (SIZE - length non_zero) in
  (new_row, score).

Definition row_step (st : Board * Z) (i : nat) : Board * Z :=
  let '(b, score) := st in
  let row := b !!! i in
  let '(new_row, score) := slide_row row score in
  (<[i := new_row]> b, score).

(** [for i in range(SIZE): ...] over the (re-indexed) board. *)
Definition slide_rows (b : Board) (score : Z) : Board * Z :=
  fold_left row_step (seq 0 SIZE) (b, score).

(** The forward re-indexing chosen by [direction] (lines 64-69); any
    value other than 0, 1 and 2 leaves the board as it is. *)
Definition view_in (direction : Z) (b : Board) : Board :=
  if direction =? 0 then transpose b
  else if direction =? 1 then fliplr b
  else if direction =? 2 then transpose (fliplr b)
  else b.

(** The re-indexing after the loop (lines 88-93). *)
Definition view_out (direction : Z) (b : Board) : Board :=
  if direction =? 0 then transpose b
  else if direction =? 1 then fliplr b
  else if direction =? 2 then fliplr (transpose b)
  else b.

(** Lines 64-93 of [move]: the board and the score before the comparison
    with [board_before]. *)
Definition slide_phase (direction : Z) (b : Board) (score : Z) : Board * Z :=
  let '(b, score) := slide_rows (view_in direction b) score in
  (view_out direction b, score).

(** ** Random draws, [add_new_tile], [is_game_over] *)

(** What one call of [add_new_tile] reads from [random]: the index that
    [random.choice] takes, and whether [random.random() < 0.9]. *)
Record Draw : Type := mkDraw {
  pick : nat;
  below_09 : bool
}.

(** [random.choice(seq)]: some element of [seq], [IndexError] when empty. *)
Definition random_choice {A : Type} (d : Draw) (l : list A) : result A :=
  match l !! (pick d mod length l)%nat with
  | Some x => Ok x
  | None => Raise IndexError
  end.

(** [[(i, j) for i in range(SIZE) for j in range(SIZE)]] *)
Definition coords : list (nat * nat) :=
  list_prod (seq 0 SIZE) (seq 0 SIZE).

Definition empty_cells (b : Board) : list (nat * nat) :=
  List.filter (fun '(i, j) => cell b i j =? 0) coords.

(** [self.board[i][j] = v] *)
Definition set_cell (b : Board) (i j : nat) (v : Z) : Board :=
  <[i := <[j := v]> (b !!! i)]> b.

Definition add_new_tile (d : Draw) (b : Board) : result Board :=
  let empty := empty_cells b in
  match empty with
  | [] => Ok b
  | _ :: _ =>
      '(i, j) ← random_choice d empty;
      Ok (set_cell b i j (if below_09 d then 2 else 4))
  end.

Definition is_game_over (b : Board) : bool :=
  if existsb (fun row => existsb (fun v => v =? 0) row) b then false
  else
    forallb (fun '(i, j) =>
      negb ((j <? SIZE - 1)%nat && (cell b i j =? cell b i (j + 1)))
      && negb ((i <? SIZE - 1)%nat && (cell b i j =? cell b (i + 1) j)))
      coords.

(** ** [move] and [reset] *)

Definition move (direction : Z) (d : Draw) (g : Game) : result (bool * Game) :=
  let board_before := board g in
  let '(b, score) := slide_phase direction (board g) (score g) in
  if negb (array_equal board_before b) then
    b ← add_new_tile d b;
    let over := if is_game_over b then true else game_over g in
    Ok (true, mkGame b score over)
  else
    Ok (false, mkGame b score (game_over g)).

(** [reset] overwrites every field of [self]; the state it starts from is
    not read. *)
Definition reset (_ : Game) (d1 d2 : Draw) : result Game :=
  b ← add_new_tile d1 zeros;
  b ← add_new_tile d2 b;
  Ok (mkGame b 0 false).

(** States the engine can be in: after a [reset] (the constructor calls
    it), and after a [move] from such a state. *)
Inductive reachable : Game -> Prop :=
| reachable_reset g0 d1 d2 g :
    reset g0 d1 d2 = Ok g -> reachable g
| reachable_move g direction d moved g' :
    reachable g -> move direction d g = Ok (moved, g') -> reachable g'.

(** The shape [(SIZE, SIZE)] of [self.board]. *)
Definition wf (b : Board) : Prop :=
  length b = SIZE /\ Forall (fun row => length row = SIZE) b.

(** ** The merges of a move

    The merge scan again, recording each iteration whose test succeeded:
    the index [j] and the value [non_zero[j]] the two tiles had. *)
Definition merge_step_traced (st : list Z * Z * list (nat * Z)) (j : nat)
  : list Z * Z * list (nat * Z) :=
  let '(st0, merges) := st in
  (merge_step st0 j,
   if (st0.1 !!! j) =? (st0.1 !!! (j + 1)%nat)
   then merges ++ [(j, st0.1 !!! j)] else merges).

Definition merge_trace (non_zero : list Z) : list (nat * Z) :=
  (fold_left merge_step_traced (seq 0 (length non_zero - 1))
     (non_zero, 0, [])).2.

(** The values [v] of the tile pairs merged in row [row]. *)
Definition row_merges (row : list Z) : list Z :=
  map snd (merge_trace (non_zeros row)).

(** The values of all tile pairs merged by [move(direction)]. *)
Definition move_merges (direction : Z) (b : Board) : list Z :=
  flat_map row_merges (view_in direction b).

Definition count_nonzero (b : Board) : nat :=
  length (non_zeros (concat b)).

Definition sumZ (l : list Z) : Z := fold_right Z.add 0 l.

(** ** The merge scan in closed form

    [pair_up l] is the array the scan leaves when started on a row [l]
    without zeros, [pair_trace k l] its merges (indices counted from [k]),
    and [add_all] the additions to the score. *)
Fixpoint pair_up (l : list Z) : list Z :=
  match l with
  | [] => []
  | a :: l' =>
      match l' with
      | [] => [a]
      | b :: r => if a =? b then wrap (a * 2) :: 0 :: pair_up r
                  else a :: pair_up l'
      end
  end.

Fixpoint pair_trace (k : nat) (l : list Z) : list (nat * Z) :=
  match l with
  | [] => []
  | a :: l' =>
      match l' with
      | [] => []
      | b :: r => if a =? b then (k, a) :: pair_trace (S (S k)) r
                  else pair_trace (S k) l'
      end
  end.

Definition add_all (l : list Z) (score : Z) : Z :=
  fold_left (fun s v => wrap (s + v)) l score.

(** The tile a merge of two tiles [v] produces. *)
Definition merged (v : Z) : Z := wrap (v * 2).

(** The row [slide_row] writes back, and what it adds to the score. *)
Definition slid (row : list Z) : list Z :=
  let non_zero := non_zeros (pair_up (non_zeros row)) in
  non_zero ++ repeat 0 (SIZE - length non_zero).

Definition gains (row : list Z) : list Z :=
  map merged (row_merges row).

(** ** Predicates of the statements *)

Definition nonzero (v : Z) : Prop := v <> 0.

(** Two merge sites are at least two indices apart: the tiles [j] and
    [j + 1] of one merge are in no other. *)
Definition apart (p q : nat * Z) : Prop := (p.1 + 2 <= q.1)%nat.

(** The merge recorded as [(j, v)] joined tiles [j] and [j + 1] of [l]. *)
Definition joins (l : list Z) (p : nat * Z) : Prop :=
  l !! p.1 = Some p.2 /\ l !! S p.1 = Some p.2.

Definition tile (v : Z) : Prop := v = 0 \/ v = 2 \/ v = 4.

(** Values for which no addition of the move leaves the 64-bit range: the
    cells and the score are not negative, and the score plus all tiles is
    below 2^63. *)
Definition in_range (g : Game) : Prop :=
  Forall (Forall (fun v => 0 <= v)) (board g)
  /\ 0 <= score g
  /\ score g + sumZ (concat (board g)) < 2 ^ (INT_BITS - 1).

(** ** The four directions, each done directly

    The reference that C1 compares [move] with, written from the words of
    the specification (section 4.1, step 2, applied along the line of the
    direction itself, with no change of orientation): the tiles of a line
    are listed from the edge they move to, zeros are removed, the sequence
    is scanned once and two adjacent equal values become their double
    followed by a zero, the scan going on after them; zeros are removed
    again and the line is padded with zeros. *)

Inductive Dir : Type := Up | Right | Down | Left.

(** The number [move] takes for a direction (its comment on line 60). *)
Definition dir_code (d : Dir) : Z :=
  match d with Up => 0 | Right => 1 | Down => 2 | Left => 3 end.

Fixpoint direct_scan (l : list Z) : list Z * Z :=
  match l with
  | [] => ([], 0)
  | a :: l' =>
      match l' with
      | [] => ([a], 0)
      | b :: r =>
          if a =? b
          then (2 * a :: 0 :: (direct_scan r).1, 2 * a + (direct_scan r).2)
          else (a :: (direct_scan l').1, (direct_scan l').2)
      end
  end.

Definition direct_line (line : list Z) : list Z * Z :=
  let '(scanned, gain) := direct_scan (non_zeros line) in
  let kept := non_zeros scanned in
  (kept ++ repeat 0 (length line - length kept), gain).

(** The cell of the board at place [p] of line [k], places counted from
    the edge the tiles move to. *)
Definition line_place (d : Dir) (k p : nat) : nat * nat :=
  match d with
  | Left => (k, p)
  | Right => (k, (SIZE - 1 - p)%nat)
  | Up => (p, k)
  | Down => ((SIZE - 1 - p)%nat, k)
  end.

(** The line and the place of the cell (i, j). *)
Definition place_of (d : Dir) (i j : nat) : nat * nat :=
  match d with
  | Left => (i, j)
  | Right => (i, (SIZE - 1 - j)%nat)
  | Up => (j, i)
  | Down => (j, (SIZE - 1 - i)%nat)
  end.

(** The lines of the board for a direction, each listed from the edge
    the tiles move to. *)
Definition lines_of (d : Dir) (b : Board) : list (list Z) :=
  map (fun k =>
         map (fun p => cell b (line_place d k p).1 (line_place d k p).2)
             (seq 0 SIZE))
      (seq 0 SIZE).

Definition direct_slide (d : Dir) (b : Board) : Board * Z :=
  let lines := map direct_line (lines_of d b) in
  (tabulate (fun i j =>
     ((lines !!! (place_of d i j).1).1) !!! (place_of d i j).2),
   sumZ (map snd lines)).

(** ** Cell values: zero or a power of two

    The doubling of a merge stays a power of two as long as it does not
    leave the 64-bit range, so the invariant carries a bound as well: on a
    reachable board, for every [k >= 3], at most [18 - k] tiles are
    [2^k] or more (one tile of 2^17 at most, two of 2^16 or more, ...).
    A merge needs two tiles of [2^(k-1)] to make one of [2^k], which keeps
    this count. *)

Definition pow2_or_zero (v : Z) : Prop :=
  v = 0 \/ exists e : Z, 1 <= e /\ v = 2 ^ e.

Definition cells_pow2 (b : Board) : Prop := Forall (Forall pow2_or_zero) b.

Definition count_ge (t : Z) (l : list Z) : nat :=
  length (List.filter (fun v => t <=? v) l).

Definition thr (k : nat) : Z := 2 ^ Z.of_nat k.

Definition crowd (b : Board) : Prop :=
  forall k : nat, (3 <= k <= SIZE * SIZE + 2)%nat ->
    (count_ge (thr k) (concat b) + k <= SIZE * SIZE + 2)%nat.

Definition Inv (b : Board) : Prop := wf b /\ cells_pow2 b /\ crowd b.

(** ** The score stays in range

    [worth v] is what building the tile [v] out of tiles 2 adds to the
    score; the score of a reachable state is at most the worth of its
    board, which the bound on the tiles keeps far inside the 64-bit
    range. *)

Definition worth (v : Z) : Z := (Z.log2 v - 1) * v.

Definition potential (l : list Z) : Z := sumZ (map worth l).

Definition SInv (g : Game) : Prop :=
  Inv (board g) /\ 0 <= score g <= potential (concat (board g)).

(** ** [main]: the event loop

    The events [main] reads from [pygame.event.get()], the keys it tests,
    and what one pass of its [for event] body does to the game. [QUIT]
    ends the program ([sys.exit()]), which the model returns as [None]. *)

Inductive Key : Type := K_r | K_UP | K_RIGHT | K_DOWN | K_LEFT | K_other.

Inductive Event : Type :=
| QUIT
| KEYDOWN (key : Key)
| OTHER_EVENT.

(** The body of [for event in pygame.event.get()]; [d1] and [d2] are the
    draws a [reset] (both) or a [move] (the first) reads. *)
Definition handle_event (ev : Event) (d1 d2 : Draw) (g : Game)
  : result (option Game) :=
  match ev with
  | QUIT => Ok None
  | KEYDOWN K_r => g' ← reset g d1 d2; Ok (Some g')
  | KEYDOWN key =>
      if negb (game_over g) then
        match key with
        | K_UP => r ← move 0 d1 g; Ok (Some r.2)
        | K_RIGHT => r ← move 1 d1 g; Ok (Some r.2)
        | K_DOWN => r ← move 2 d1 g; Ok (Some r.2)
        | K_LEFT => r ← move 3 d1 g; Ok (Some r.2)
        | _ => Ok (Some g)
        end
      else Ok (Some g)
  | OTHER_EVENT => Ok (Some g)
  end.

(** The events of the loop, in the order they are read, from state [g]. *)
Fixpoint run_events (evs : list (Event * Draw * Draw)) (g : Game)
  : result (option Game) :=
  match evs with
  | [] => Ok (Some g)
  | (ev, d1, d2) :: evs =>
      r ← handle_event ev d1 d2 g;
      match r with
      | Some g' => run_events evs g'
      | None => Ok None
      end
  end.

(** ** [draw]: what is put on the screen

    The calls [draw] makes on [screen], in order. The width and the height
    of a rendered text come from pygame's fonts and are taken as given. A
    subscript [COLORS[k]] of a missing key raises [KeyError], the [None]
    of the model. *)

Definition GRID_SIZE : Z := 100.
Definition GRID_MARGIN : Z := 10.
Definition WIDTH : Z := Z.of_nat SIZE * (GRID_SIZE + GRID_MARGIN) + GRID_MARGIN.
Definition HEIGHT : Z := WIDTH + 50.

Abbreviation Color := (Z * Z * Z)%type.

(** The dictionary [COLORS]: integer keys and string keys. *)
Definition COLORS : gmap (Z + string) Color :=
  list_to_map
    [ (inl 0, (204, 192, 179));
      (inl 2, (238, 228, 218));
      (inl 4, (237, 224, 200));
      (inl 8, (242, 177, 121));
      (inl 16, (245, 149, 99));
      (inl 32, (246, 124, 95));
      (inl 64, (246, 94, 59));
      (inl 128, (237, 207, 114));
      (inl 256, (237, 204, 97));
      (inl 512, (237, 200, 80));
      (inl 1024, (237, 197, 63));
      (inl 2048, (237, 194, 46));
      (inr "background"%string, (187, 173, 160));
      (inr "text"%string, (119, 110, 101));
      (inr "text_light"%string, (249, 246, 242)) ].

Inductive Font : Type := FONT | SMALL_FONT.

Record TextMetrics : Type := mkMetrics {
  get_width : Font -> string -> Z;
  get_height : Font -> string -> Z
}.

Inductive ScreenOp : Type :=
| fill (c : Color)
| blit_text (font : Font) (text : string) (c : Color) (x y : Z)
| blit_text_centered (font : Font) (text : string) (c : Color) (cx cy : Z)
| draw_rect (c : Color) (x y w h : Z) (border_radius : Z)
| blit_overlay (w h : Z) (rgba : Z * Z * Z * Z)
| flip.

(** [COLORS[value] if value in COLORS else COLORS[2048]] *)
Definition tile_color (value : Z) : option Color :=
  if bool_decide (is_Some (COLORS !! (inl value : Z + string)))
  then COLORS !! (inl value : Z + string)
  else COLORS !! (inl 2048 : Z + string).

Definition tile_x (j : nat) : Z :=
  GRID_MARGIN + Z.of_nat j * (GRID_SIZE + GRID_MARGIN).

Definition tile_y (i : nat) : Z :=
  50 + GRID_MARGIN + Z.of_nat i * (GRID_SIZE + GRID_MARGIN).

(** The body of the two loops of [draw] for the cell (i, j). *)
Definition draw_cell (b : Board) (ij : nat * nat) : option (list ScreenOp) :=
  let value := cell b ij.1 ij.2 in
  color ← tile_color value;
  let x := tile_x ij.2 in
  let y := tile_y ij.1 in
  let rect := draw_rect color x y GRID_SIZE GRID_SIZE 5 in
  if negb (value =? 0) then
    text_color ← (if value <=? 4
                  then COLORS !! (inr "text"%string : Z + string)
                  else COLORS !! (inr "text_light"%string : Z + string));
    Some [rect;
          blit_text_centered FONT (pretty value) text_color
            (x + GRID_SIZE / 2) (y + GRID_SIZE / 2)]
  else Some [rect].

Definition score_label (g : Game) : string :=
  ("Score: " +:+ pretty (score g))%string.

Definition draw_game_over (m : TextMetrics) (g : Game)
  : option (list ScreenOp) :=
  if game_over g then
    dark ← COLORS !! (inr "text"%string : Z + string);
    let game_over_text := "Gameover!"%string in
    let restart := "Press R to restart"%string in
    Some [blit_overlay WIDTH HEIGHT (238, 228, 218, 180);
          blit_text FONT game_over_text dark
            (WIDTH / 2 - get_width m FONT game_over_text / 2)
            (HEIGHT / 2 - get_height m FONT game_over_text / 2);
          blit_text FONT (score_label g) dark
            (WIDTH / 2 - get_width m FONT (score_label g) / 2)
            (HEIGHT / 2 + get_height m FONT (score_label g) / 2);
          blit_text SMALL_FONT restart dark
            (WIDTH / 2 - get_width m SMALL_FONT restart / 2)
            (HEIGHT / 2 + get_height m FONT game_over_text)]
  else Some [].

Definition draw (m : TextMetrics) (g : Game) : option (list ScreenOp) :=
  background ← COLORS !! (inr "background"%string : Z + string);
  light ← COLORS !! (inr "text_light"%string : Z + string);
  cells ← mapM (draw_cell (board g)) coords;
  over ← draw_game_over m g;
  Some ([fill background;
         blit_text SMALL_FONT (score_label g) light 10 10;
         blit_text SMALL_FONT "Press R to restart"%string light (WIDTH - 180) 10]
        ++ concat cells ++ over ++ [flip]).

(** The screen rectangles [(x, y, w, h)] of the [draw_rect] calls, and the
    labels of the centred texts. *)
Definition rects (ops : list ScreenOp) : list (Z * Z * Z * Z) :=
  flat_map (fun op => match op with
                      | draw_rect _ x y w h _ => [(x, y, w, h)]
                      | _ => []
                      end) ops.

Definition labels (ops : list ScreenOp) : list string :=
  flat_map (fun op => match op with
                      | blit_text_centered _ text _ _ _ => [text]
                      | _ => []
                      end) ops.

Definition overlays (ops : list ScreenOp) : nat :=
  length (flat_map (fun op => match op with
                              | blit_overlay _ _ _ => [op]
                              | _ => []
                              end) ops).

(** ** The layout [draw] gives the cells *)

(** The rectangle of the cell (i, j). *)
Definition tile_rect (ij : nat * nat) : Z * Z * Z * Z :=
  (tile_x ij.2, tile_y ij.1, GRID_SIZE, GRID_SIZE).

(** What [draw] writes in the cell (i, j): nothing on an empty cell. *)
Definition cell_label (b : Board) (ij : nat * nat) : list string :=
  if cell b ij.1 ij.2 =? 0 then [] else [pretty (cell b ij.1 ij.2)].

(** A rectangle inside the window, a margin away from its sides and below
    the line of the score. *)
Definition inside (r : Z * Z * Z * Z) : Prop :=
  let '(x, y, w, h) := r in
  GRID_MARGIN <= x /\ x + w + GRID_MARGIN <= WIDTH
  /\ 50 + GRID_MARGIN <= y /\ y + h + GRID_MARGIN <= HEIGHT.

(** Two rectangles at least a margin apart. *)
Definition separated (r1 r2 : Z * Z * Z * Z) : Prop :=
  let '(x1, y1, w1, h1) := r1 in
  let '(x2, y2, w2, h2) := r2 in
  x1 + w1 + GRID_MARGIN <= x2 \/ x2 + w2 + GRID_MARGIN <= x1
  \/ y1 + h1 + GRID_MARGIN <= y2 \/ y2 + h2 + GRID_MARGIN <= y1.

(** * The picture-to-characters converter of [图片转字符画.py]

    [get_font_size], the pixel loop of [image_to_ascii] and the plain text
    branch of [format_output]. What Pillow computes (the grey and the RGB
    pixel data of the image) is their input; Python's integers are
    unbounded, [//] is the floor division and raises on a zero divisor, a
    subscript raises out of range and counts from the end when negative. *)

Module CharArt.

Inductive error : Type := ValueError | ZeroDivisionError | IndexError.

Inductive py (A : Type) : Type :=
| Return (a : A)
| Raise (e : error).
Arguments Return {A} a.
Arguments Raise {A} e.

Definition bind {A B : Type} (r : py A) (k : A -> py B) : py B :=
  match r with
  | Return a => k a
  | Raise e => Raise e
  end.

(** [a // b] *)
Definition floordiv (a b : Z) : py Z :=
  if b =? 0 then Raise ZeroDivisionError else Return (a / b).

(** [l[k]] *)
Definition subscript {A : Type} (l : list A) (k : Z) : py A :=
  let n := Z.of_nat (length l) in
  let k' := if k <? 0 then k + n else k in
  if (0 <=? k') && (k' <? n) then
    match l !! Z.to_nat k' with
    | Some x => Return x
    | None => Raise IndexError
    end
  else Raise IndexError.

Definition ASCII_CHARS : list string :=
  ["@"; "#"; "$"; "%"; "?"; "*"; "*"; "+"; ";"; ":"; ","; "."]%string.

Definition COLOR_MODES : list string :=
  ["none"; "ansi"; "html"; "rgb"]%string.

Definition get_font_size (image_size char_size : Z * Z) : py Z :=
  let '(width, height) := image_size in
  let '(char_width, char_height) := char_size in
  bind (floordiv width char_width) (fun font_width =>
  bind (floordiv height char_height) (fun font_height =>
  Return (Z.min font_width font_height))).

(** The loop [for i, pixel in enumerate(pixels)], from index [i]. *)
Fixpoint ascii_loop (char_set : list string) (char_range : Z)
    (rgb_pixels : list (Z * Z * Z)) (i : Z) (pixels : list Z)
    (characters : list string) (colors : list (Z * Z * Z))
  : py (list string * list (Z * Z * Z)) :=
  match pixels with
  | [] => Return (characters, colors)
  | pixel :: pixels =>
      bind (floordiv pixel char_range) (fun q =>
      let char_index := Z.min q (Z.of_nat (length char_set) - 1) in
      bind (subscript char_set char_index) (fun ch =>
      bind (subscript rgb_pixels i) (fun color =>
      ascii_loop char_set char_range rgb_pixels (i + 1) pixels
        (characters ++ [ch]) (colors ++ [color]))))
  end.

(** [image_to_ascii]; [gray] and [rgb_pixels] are
    [list(image.convert("L").getdata())] and
    [list(image.convert("RGB").getdata())]. *)
Definition image_to_ascii (gray : list Z) (rgb_pixels : list (Z * Z * Z))
    (char_set : list string) (color_mode : string) (invert : bool)
  : py (list string * list (Z * Z * Z)) :=
  if negb (bool_decide (color_mode ∈ COLOR_MODES)) then Raise ValueError
  else
    let pixels := if invert then map (fun p => 255 - p) gray else gray in
    bind (floordiv 256 (Z.of_nat (length char_set))) (fun char_range =>
    ascii_loop char_set char_range rgb_pixels 0 pixels [] []).

(** [range(0, stop, step)] *)
Definition range_step (stop step : Z) : py (list Z) :=
  if step =? 0 then Raise ValueError
  else if step <? 0 then Return []
  else Return (map (fun k => Z.of_nat k * step)
                   (seq 0 (Z.to_nat ((stop + step - 1) / step)))).

(** [l[i:i + width]] for [0 <= i]. *)
Definition slice {A : Type} (l : list A) (i width : Z) : list A :=
  take (Z.to_nat (i + width) - Z.to_nat i) (drop (Z.to_nat i) l).

(** The lines of [format_output] for [output_format == "text"] and a
    [color_mode] other than ["ansi"]. *)
Definition text_lines (characters : list string) (width : Z)
  : py (list string) :=
  bind (range_step (Z.of_nat (length characters)) width) (fun starts =>
  Return (map (fun i => String.concat "" (slice characters i width)) starts)).

(** ["\n"] *)
Definition newline : string :=
  String (Stdlib.Strings.Ascii.ascii_of_nat 10) "".

Definition format_text (characters : list string) (width : Z) : py string :=
  bind (text_lines characters width) (fun lines =>
  Return (String.concat newline lines)).

End CharArt.

(** ** The converter: the index of a pixel, lines put end to end *)

(** The index [min(pixel // (256 // n), n - 1)] that [image_to_ascii]
    takes in a set of [n] characters. *)
Definition char_index (n pixel : Z) : Z := Z.min (pixel / (256 / n)) (n - 1).

(** [str.join] with the empty separator. *)
Definition joined (l : list string) : string := String.concat "" l.

(** * Properties *)

(** ** The scan loop against its closed form *)

Lemma merge_step_cons x l s j :
  merge_step (x :: l, s) (S j) =
  ((x :: (merge_step (l, s) j).1), (merge_step (l, s) j).2).
Proof.
  unfold merge_step. simpl.
  destruct (l !!! j =? l !!! (j + 1)%nat); reflexivity.
Qed.

Lemma merge_step_at pre a b r s :
  merge_step (pre ++ a :: b :: r, s) (length pre) =
  if a =? b then (pre ++ merged a :: 0 :: r, wrap (s + merged a))
  else (pre ++ a :: b :: r, s).
Proof.
  induction pre as [|x pre IH]; cbn [app length].
  - unfold merge_step. simpl. destruct (a =? b); reflexivity.
  - rewrite merge_step_cons, IH. destruct (a =? b); reflexivity.
Qed.

Lemma merge_step_traced_at pre a b r s tr :
  merge_step_traced (pre ++ a :: b :: r, s, tr) (length pre) =
  if a =? b
  then (pre ++ merged a :: 0 :: r, wrap (s + merged a), tr ++ [(length pre, a)])
  else (pre ++ a :: b :: r, s, tr).
Proof.
  unfold merge_step_traced. rewrite merge_step_at. cbn [fst snd].
  assert (Ha : (pre ++ a :: b :: r) !!! length pre = a)
    by (apply list_lookup_total_middle; reflexivity).
  assert (Hb : (pre ++ a :: b :: r) !!! (length pre + 1)%nat = b).
  { change (pre ++ a :: b :: r) with (pre ++ [a] ++ b :: r).
    rewrite app_assoc. apply list_lookup_total_middle.
    rewrite length_app. reflexivity. }
  rewrite Ha, Hb. destruct (a =? b); reflexivity.
Qed.

Lemma merge_fold_traced n : forall rest pre s tr,
  (length rest <= n)%nat -> Forall nonzero rest ->
  fold_left merge_step_traced (seq (length pre) (length rest - 1))
    (pre ++ rest, s, tr) =
  (pre ++ pair_up rest,
   add_all (map (fun p => merged p.2) (pair_trace (length pre) rest)) s,
   tr ++ pair_trace (length pre) rest).
Proof.
  induction n as [|n IH]; intros rest pre s tr Hn Hnz.
  - destruct rest; [|simpl in Hn; lia]. simpl. rewrite !app_nil_r. reflexivity.
  - destruct rest as [|a [|b r]].
    + simpl. rewrite !app_nil_r. reflexivity.
    + simpl. rewrite !app_nil_r. reflexivity.
    + cbn [length Nat.sub seq fold_left].
      rewrite merge_step_traced_at.
      cbn [pair_up pair_trace]. destruct (a =? b) eqn:Hab.
      * (* merged: the next test reads the zero just written *)
        inversion Hnz as [|? ? _ Hnz1]; subst.
        inversion Hnz1 as [|? ? _ Hnz2]; subst.
        destruct r as [|c r'].
        { reflexivity. }
        cbn [length seq fold_left].
        assert (Hc : (0 =? c) = false).
        { apply Z.eqb_neq. inversion Hnz2; subst. unfold nonzero in *. lia. }
        assert (Hl1 : length (pre ++ [merged a]) = S (length pre))
          by (rewrite length_app; simpl; lia).
        assert (Hl2 : length (pre ++ [merged a; 0]) = S (S (length pre)))
          by (rewrite length_app; simpl; lia).
        replace (pre ++ merged a :: 0 :: c :: r')
          with ((pre ++ [merged a]) ++ 0 :: c :: r')
          by (rewrite <- app_assoc; reflexivity).
        rewrite <- Hl1, merge_step_traced_at, Hc, Hl1.
        replace ((pre ++ [merged a]) ++ 0 :: c :: r')
          with ((pre ++ [merged a; 0]) ++ c :: r')
          by (rewrite <- !app_assoc; reflexivity).
        rewrite <- Hl2.
        replace (length r') with (length (c :: r') - 1)%nat by (simpl; lia).
        rewrite IH; [|simpl in *; lia|assumption].
        rewrite Hl2, <- !app_assoc. reflexivity.
      * assert (Hl1 : length (pre ++ [a]) = S (length pre))
          by (rewrite length_app; simpl; lia).
        replace (pre ++ a :: b :: r) with ((pre ++ [a]) ++ b :: r)
          by (rewrite <- app_assoc; reflexivity).
        rewrite <- Hl1.
        replace (length r) with (length (b :: r) - 1)%nat by (simpl; lia).
        inversion Hnz; subst.
        rewrite IH; [|simpl in *; lia|assumption].
        rewrite Hl1, <- !app_assoc. reflexivity.
Qed.

Lemma merge_fold_erase l : forall st tr,
  (fold_left merge_step_traced l (st, tr)).1 = fold_left merge_step l st.
Proof.
  induction l as [|j l IH]; intros st tr; [reflexivity|].
  cbn [fold_left]. unfold merge_step_traced at 2. apply IH.
Qed.

Lemma non_zeros_nonzero row : Forall nonzero (non_zeros row).
Proof.
  unfold non_zeros. apply List.Forall_forall. intros v Hv.
  apply filter_In in Hv. destruct Hv as [_ Hv].
  unfold nonzero. apply negb_true_iff, Z.eqb_neq in Hv. assumption.
Qed.

Lemma merge_trace_closed nz :
  Forall nonzero nz -> merge_trace nz = pair_trace 0 nz.
Proof.
  intros Hnz. unfold merge_trace.
  pose proof (merge_fold_traced (length nz) nz [] 0 [] (le_n _) Hnz) as H.
  cbn [length app] in H. rewrite H. reflexivity.
Qed.

Lemma merge_loop_closed nz s :
  Forall nonzero nz ->
  merge_loop nz s =
  (pair_up nz, add_all (map (fun p => merged p.2) (pair_trace 0 nz)) s).
Proof.
  intros Hnz. unfold merge_loop.
  rewrite <- (merge_fold_erase _ _ []).
  pose proof (merge_fold_traced (length nz) nz [] s [] (le_n _) Hnz) as H.
  cbn [length app] in H. rewrite H. reflexivity.
Qed.

Lemma gains_closed row :
  gains row = map (fun p => merged p.2) (pair_trace 0 (non_zeros row)).
Proof.
  unfold gains, row_merges.
  rewrite merge_trace_closed by apply non_zeros_nonzero.
  rewrite map_map. reflexivity.
Qed.

Lemma slide_row_closed row s :
  slide_row row s = (slid row, add_all (gains row) s).
Proof.
  unfold slide_row. rewrite merge_loop_closed by apply non_zeros_nonzero.
  rewrite gains_closed. reflexivity.
Qed.

(** ** Boards of shape (4, 4) *)

Lemma length4 {A : Type} (l : list A) :
  length l = SIZE -> exists a b c d, l = [a; b; c; d].
Proof.
  unfold SIZE. intros H.
  destruct l as [|a [|b [|c [|d [|e l]]]]]; try discriminate.
  eauto.
Qed.

Lemma wf_rows b :
  wf b -> exists r0 r1 r2 r3,
    b = [r0; r1; r2; r3] /\ length r0 = SIZE /\ length r1 = SIZE
    /\ length r2 = SIZE /\ length r3 = SIZE.
Proof.
  intros [Hl Hr]. destruct (length4 b Hl) as (r0 & r1 & r2 & r3 & ->).
  exists r0, r1, r2, r3.
  repeat match goal with
         | H : Forall _ (_ :: _) |- _ => inversion H; subst; clear H
         end.
  auto.
Qed.

Lemma wf_cells b :
  wf b -> exists a0 a1 a2 a3 b0 b1 b2 b3 c0 c1 c2 c3 d0 d1 d2 d3,
    b = [[a0; a1; a2; a3]; [b0; b1; b2; b3];
         [c0; c1; c2; c3]; [d0; d1; d2; d3]].
Proof.
  intros H. destruct (wf_rows b H) as (r0 & r1 & r2 & r3 & -> & H0 & H1 & H2 & H3).
  destruct (length4 r0 H0) as (? & ? & ? & ? & ->).
  destruct (length4 r1 H1) as (? & ? & ? & ? & ->).
  destruct (length4 r2 H2) as (? & ? & ? & ? & ->).
  destruct (length4 r3 H3) as (? & ? & ? & ? & ->).
  repeat eexists.
Qed.

Lemma wf_of_rows r0 r1 r2 r3 :
  length r0 = SIZE -> length r1 = SIZE -> length r2 = SIZE ->
  length r3 = SIZE -> wf [r0; r1; r2; r3].
Proof. intros. split; [reflexivity|]. repeat constructor; assumption. Qed.

Ltac board_cells b :=
  let H := fresh in
  match goal with
  | Hwf : wf b |- _ =>
      pose proof (wf_cells b Hwf) as H;
      destruct H as (? & ? & ? & ? & ? & ? & ? & ? &
                     ? & ? & ? & ? & ? & ? & ? & ? & ->)
  end.

Lemma transpose_involutive b : wf b -> transpose (transpose b) = b.
Proof. intros Hwf. board_cells b. reflexivity. Qed.

Lemma fliplr_involutive b : wf b -> fliplr (fliplr b) = b.
Proof. intros Hwf. board_cells b. reflexivity. Qed.

Lemma view_out_in direction b :
  wf b -> view_out direction (view_in direction b) = b.
Proof.
  intros Hwf. board_cells b. unfold view_out, view_in.
  destruct (direction =? 0); [reflexivity|].
  destruct (direction =? 1); [reflexivity|].
  destruct (direction =? 2); reflexivity.
Qed.

Lemma view_in_out direction b :
  wf b -> view_in direction (view_out direction b) = b.
Proof.
  intros Hwf. board_cells b. unfold view_out, view_in.
  destruct (direction =? 0); [reflexivity|].
  destruct (direction =? 1); [reflexivity|].
  destruct (direction =? 2); reflexivity.
Qed.

Lemma tabulate_wf f : wf (tabulate f).
Proof. split; [reflexivity|]. repeat constructor. Qed.

Lemma view_in_wf direction b : wf b -> wf (view_in direction b).
Proof.
  intros Hwf. unfold view_in.
  destruct (direction =? 0); [apply tabulate_wf|].
  destruct (direction =? 1); [apply tabulate_wf|].
  destruct (direction =? 2); [apply tabulate_wf|assumption].
Qed.

Lemma view_out_wf direction b : wf b -> wf (view_out direction b).
Proof.
  intros Hwf. unfold view_out.
  destruct (direction =? 0); [apply tabulate_wf|].
  destruct (direction =? 1); [apply tabulate_wf|].
  destruct (direction =? 2); [apply tabulate_wf|assumption].
Qed.

(** ** The row loop *)

Lemma add_all_app l1 l2 s : add_all (l1 ++ l2) s = add_all l2 (add_all l1 s).
Proof. unfold add_all. apply fold_left_app. Qed.

Lemma row_step_closed b s i :
  row_step (b, s) i = (<[i := slid (b !!! i)]> b, add_all (gains (b !!! i)) s).
Proof. unfold row_step. rewrite slide_row_closed. reflexivity. Qed.

Lemma slide_rows_closed b s :
  length b = SIZE ->
  slide_rows b s = (map slid b, add_all (flat_map gains b) s).
Proof.
  intros Hl. destruct (length4 b Hl) as (r0 & r1 & r2 & r3 & ->).
  unfold slide_rows, SIZE. cbn [seq fold_left].
  rewrite !row_step_closed. cbn [flat_map map].
  rewrite !add_all_app. reflexivity.
Qed.

Lemma slide_phase_closed direction b s :
  wf b ->
  slide_phase direction b s =
  (view_out direction (map slid (view_in direction b)),
   add_all (flat_map gains (view_in direction b)) s).
Proof.
  intros Hwf. unfold slide_phase.
  rewrite slide_rows_closed by apply (view_in_wf direction b Hwf).
  reflexivity.
Qed.

(** ** Rows: compaction and the closed form of the scan *)

Lemma pair_ind (P : list Z -> Prop) :
  P [] -> (forall a, P [a]) ->
  (forall a b r, P r -> P (b :: r) -> P (a :: b :: r)) ->
  forall l, P l.
Proof.
  intros H0 H1 H2 l.
  assert (H : P l /\ forall a, P (a :: l)); [|apply H].
  induction l as [|b r [IHr IHbr]]; split; auto.
Qed.

Lemma non_zeros_app l1 l2 : non_zeros (l1 ++ l2) = non_zeros l1 ++ non_zeros l2.
Proof. apply List.filter_app. Qed.

Lemma non_zeros_repeat n : non_zeros (repeat 0 n) = [].
Proof. induction n; simpl; auto. Qed.

Lemma non_zeros_id l : Forall nonzero l -> non_zeros l = l.
Proof.
  induction 1 as [|v l Hv _ IH]; [reflexivity|].
  unfold non_zeros in *. simpl. apply Z.eqb_neq in Hv. rewrite Hv. simpl.
  f_equal. exact IH.
Qed.

Lemma non_zeros_idem l : non_zeros (non_zeros l) = non_zeros l.
Proof. apply non_zeros_id, non_zeros_nonzero. Qed.

Lemma non_zeros_length l : (length (non_zeros l) <= length l)%nat.
Proof. apply List.filter_length_le. Qed.

Lemma non_zeros_full l : length (non_zeros l) = length l -> non_zeros l = l.
Proof.
  induction l as [|v l IH]; [reflexivity|].
  unfold non_zeros in *. simpl. destruct (v =? 0); simpl; intros H.
  - pose proof (List.filter_length_le (fun v => negb (v =? 0)) l). lia.
  - f_equal. apply IH. lia.
Qed.

Lemma pair_up_cons2 a b r :
  pair_up (a :: b :: r) =
  if a =? b then merged a :: 0 :: pair_up r else a :: pair_up (b :: r).
Proof. reflexivity. Qed.

Lemma pair_trace_cons2 k a b r :
  pair_trace k (a :: b :: r) =
  if a =? b then (k, a) :: pair_trace (S (S k)) r else pair_trace (S k) (b :: r).
Proof. reflexivity. Qed.

Lemma non_zeros_cons v l :
  non_zeros (v :: l) = if v =? 0 then non_zeros l else v :: non_zeros l.
Proof. unfold non_zeros. simpl. destruct (v =? 0); reflexivity. Qed.

Lemma pair_up_length l : length (pair_up l) = length l.
Proof.
  induction l as [| |a b r IHr IHbr] using pair_ind; try reflexivity.
  rewrite pair_up_cons2. destruct (a =? b); cbn [length] in *; lia.
Qed.

(** Every merge takes at least one tile out of the row. *)
Lemma pair_up_count l : forall k,
  (length (non_zeros (pair_up l)) + length (pair_trace k l) <= length l)%nat.
Proof.
  induction l as [| |a b r IHr IHbr] using pair_ind; intros k.
  - simpl. lia.
  - cbn [pair_up]. rewrite non_zeros_cons. destruct (a =? 0); simpl; lia.
  - rewrite pair_up_cons2, pair_trace_cons2. destruct (a =? b).
    + specialize (IHr (S (S k))). rewrite !non_zeros_cons.
      change (0 =? 0) with true. cbv iota.
      destruct (merged a =? 0); cbn [length]; lia.
    + specialize (IHbr (S k)). rewrite non_zeros_cons.
      destruct (a =? 0); cbn [length] in *; lia.
Qed.

Lemma pair_up_no_merge l : forall k, pair_trace k l = [] -> pair_up l = l.
Proof.
  induction l as [| |a b r IHr IHbr] using pair_ind; intros k; try reflexivity.
  rewrite pair_up_cons2, pair_trace_cons2. destruct (a =? b); [discriminate|].
  intros H. f_equal. apply (IHbr (S k)). exact H.
Qed.

Lemma slid_non_zeros row :
  non_zeros (slid row) = non_zeros (pair_up (non_zeros row)).
Proof.
  unfold slid. rewrite non_zeros_app, non_zeros_repeat, app_nil_r.
  apply non_zeros_idem.
Qed.

Lemma slid_count row :
  (length (non_zeros (slid row)) + length (gains row)
   <= length (non_zeros row))%nat.
Proof.
  rewrite slid_non_zeros, gains_closed, length_map. apply pair_up_count.
Qed.

Lemma slid_length row :
  (length row <= SIZE)%nat -> length (slid row) = SIZE.
Proof.
  intros H. unfold slid. rewrite length_app, repeat_length.
  pose proof (non_zeros_length (pair_up (non_zeros row))).
  rewrite pair_up_length in *.
  pose proof (non_zeros_length row). lia.
Qed.

(** A row the slide leaves as it is had no merge. *)
Lemma slid_fixed_gains row : slid row = row -> gains row = [].
Proof.
  intros H. pose proof (slid_count row) as Hc. rewrite H in Hc.
  apply length_zero_iff_nil. lia.
Qed.

(** A row the slide changes has an empty cell afterwards. *)
Lemma slid_full_fixed row :
  length row = SIZE -> Forall nonzero (slid row) -> slid row = row.
Proof.
  intros Hl Hnz.
  pose proof (slid_count row) as Hc.
  pose proof (non_zeros_length row) as Hr.
  rewrite (non_zeros_id _ Hnz), slid_length in Hc by lia.
  assert (Hfull : non_zeros row = row) by (apply non_zeros_full; lia).
  assert (Hg : pair_trace 0 (non_zeros row) = []).
  { assert (Hg : gains row = []) by (apply length_zero_iff_nil; lia).
    rewrite gains_closed in Hg. apply map_eq_nil in Hg. exact Hg. }
  unfold slid. rewrite (pair_up_no_merge _ _ Hg), non_zeros_idem, Hfull.
  rewrite Hl, Nat.sub_diag. apply app_nil_r.
Qed.

(** ** One merge per tile *)

Lemma pair_trace_from l : forall k,
  Forall (fun p => (k <= p.1)%nat) (pair_trace k l).
Proof.
  induction l as [| |a b r IHr IHbr] using pair_ind; intros k;
    try (constructor; fail).
  rewrite pair_trace_cons2. destruct (a =? b).
  - constructor; [simpl; lia|].
    eapply List.Forall_impl; [|apply (IHr (S (S k)))]. simpl. intros; lia.
  - eapply List.Forall_impl; [|apply (IHbr (S k))]. simpl. intros; lia.
Qed.

Lemma pair_trace_apart l : forall k, StronglySorted apart (pair_trace k l).
Proof.
  induction l as [| |a b r IHr IHbr] using pair_ind; intros k;
    try (constructor; fail).
  rewrite pair_trace_cons2. destruct (a =? b); [|apply IHbr].
  constructor; [apply IHr|].
  eapply List.Forall_impl; [|apply (pair_trace_from r (S (S k)))].
  unfold apart. simpl. intros; lia.
Qed.

Lemma pair_trace_joins l : forall k,
  Forall (fun p => (k <= p.1)%nat /\ l !! (p.1 - k)%nat = Some p.2
                   /\ l !! (S p.1 - k)%nat = Some p.2) (pair_trace k l).
Proof.
  induction l as [| |a b r IHr IHbr] using pair_ind; intros k;
    try (constructor; fail).
  rewrite pair_trace_cons2. destruct (a =? b) eqn:Hab.
  - apply Z.eqb_eq in Hab. subst b. constructor.
    + cbn [fst snd]. rewrite Nat.sub_diag.
      replace (S k - k)%nat with 1%nat by lia. auto.
    + eapply List.Forall_impl; [|apply (IHr (S (S k)))].
      intros [j v]. cbn [fst snd]. intros (Hk & H1 & H2).
      replace (j - k)%nat with (S (S (j - S (S k)))) by lia.
      replace (S j - k)%nat with (S (S (S j - S (S k)))) by lia.
      auto with lia.
  - eapply List.Forall_impl; [|apply (IHbr (S k))].
    intros [j v]. cbn [fst snd]. intros (Hk & H1 & H2).
    replace (j - k)%nat with (S (j - S k)) by lia.
    replace (S j - k)%nat with (S (S j - S k)) by lia.
    auto with lia.
Qed.

(** C4. In the merge scan of any row, each merge joins two tiles of the
    compacted row as it was before the scan, and no tile is in two merges
    (the merge sites are at least two apart), so a merged tile is never
    merged again; [2,2,2,2] slides to [4,4,0,0], not [8,0,0,0], and
    [2,2,4,4] to [4,8,0,0]. *)
Theorem merge_once_per_tile :
  (forall row : list Z,
     let non_zero := non_zeros row in
     StronglySorted apart (merge_trace non_zero)
     /\ Forall (joins non_zero) (merge_trace non_zero))
  /\ (forall s, (slide_row [2; 2; 2; 2] s).1 = [4; 4; 0; 0])
  /\ (forall s, (slide_row [2; 2; 2; 2] s).1 <> [8; 0; 0; 0])
  /\ (forall s, (slide_row [2; 2; 4; 4] s).1 = [4; 8; 0; 0]).
Proof.
  split; [|repeat split; intros s; rewrite slide_row_closed; cbn [fst];
           try discriminate; reflexivity].
  intros row non_zero.
  rewrite merge_trace_closed by apply non_zeros_nonzero.
  split; [apply pair_trace_apart|].
  eapply List.Forall_impl; [|apply (pair_trace_joins non_zero 0%nat)].
  intros [j v]. unfold joins. cbn [fst snd].
  rewrite Nat.sub_0_r. intros (_ & H1 & H2). auto.
Qed.

(** ** Moves that change nothing *)

Lemma map_slid_wf X : wf X -> wf (map slid X).
Proof.
  intros [Hl Hr]. split; [rewrite length_map; exact Hl|].
  apply List.Forall_map. eapply List.Forall_impl; [|exact Hr].
  intros row H. apply slid_length. simpl in H. lia.
Qed.

Lemma fixed_rows_no_gain X : map slid X = X -> flat_map gains X = [].
Proof.
  induction X as [|row X IH]; [reflexivity|].
  cbn [map flat_map]. intros H. injection H as Hrow HX.
  rewrite (slid_fixed_gains row Hrow), (IH HX). reflexivity.
Qed.

Lemma array_equal_refl b : array_equal b b = true.
Proof. unfold array_equal. apply bool_decide_eq_true. reflexivity. Qed.

Lemma slide_phase_fixed direction b s :
  wf b -> (slide_phase direction b s).1 = b ->
  slide_phase direction b s = (b, s).
Proof.
  intros Hwf H. rewrite slide_phase_closed in * by assumption.
  cbn [fst] in H. rewrite H. f_equal.
  assert (HX : map slid (view_in direction b) = view_in direction b).
  { rewrite <- H at 2. symmetry. apply view_in_out.
    apply map_slid_wf, view_in_wf, Hwf. }
  rewrite (fixed_rows_no_gain _ HX). reflexivity.
Qed.

Lemma move_fixed direction d g :
  wf (board g) ->
  (slide_phase direction (board g) (score g)).1 = board g ->
  move direction d g = Ok (false, g).
Proof.
  intros Hwf H. destruct g as [b s o]. cbn [board score game_over] in *.
  unfold move. cbn [board score game_over].
  rewrite (slide_phase_fixed direction b s Hwf H), array_equal_refl.
  reflexivity.
Qed.

(** C6. A move whose slide/merge leaves every cell as it was returns
    [False] and leaves the board, the score and [game_over] as they were:
    no tile is spawned and nothing is added to the score. *)
Theorem noop_move direction d g :
  wf (board g) ->
  (slide_phase direction (board g) (score g)).1 = board g ->
  move direction d g = Ok (false, g)
  /\ (slide_phase direction (board g) (score g)).2 = score g
  /\ forall moved g', move direction d g = Ok (moved, g') ->
       moved = false /\ board g' = board g /\ score g' = score g
       /\ game_over g' = game_over g
       /\ count_nonzero (board g') = count_nonzero (board g).
Proof.
  intros Hwf H. pose proof (move_fixed direction d g Hwf H) as Hm.
  split; [exact Hm|].
  split; [rewrite (slide_phase_fixed direction _ _ Hwf H); reflexivity|].
  intros moved g' Hg'. rewrite Hm in Hg'. injection Hg' as <- <-. auto.
Qed.

Lemma noop_move_witness :
  let g := mkGame [[2; 4; 0; 0]; [0; 0; 0; 0]; [8; 0; 0; 0]; [0; 0; 0; 0]] 12 false in
  move 3 (mkDraw 0 true) g = Ok (false, g).
Proof.
  refine (proj1 (noop_move 3 (mkDraw 0 true) _ _ _)).
  - repeat constructor.
  - reflexivity.
Defined.

(** ** Terminal boards *)

Lemma slid_fixed4 a b c d :
  a <> 0 -> b <> 0 -> c <> 0 -> d <> 0 -> a <> b -> b <> c -> c <> d ->
  slid [a; b; c; d] = [a; b; c; d].
Proof.
  intros Ha Hb Hc Hd Hab Hbc Hcd. unfold slid.
  assert (Hnz : Forall nonzero [a; b; c; d]) by (repeat constructor; assumption).
  rewrite (non_zeros_id _ Hnz).
  assert (Hp : pair_up [a; b; c; d] = [a; b; c; d]).
  { rewrite !pair_up_cons2.
    apply Z.eqb_neq in Hab, Hbc, Hcd. rewrite Hab, Hbc, Hcd. reflexivity. }
  rewrite Hp, (non_zeros_id _ Hnz). reflexivity.
Qed.

Lemma is_game_over_cells a0 a1 a2 a3 b0 b1 b2 b3 c0 c1 c2 c3 d0 d1 d2 d3 :
  is_game_over [[a0; a1; a2; a3]; [b0; b1; b2; b3];
                [c0; c1; c2; c3]; [d0; d1; d2; d3]] = true ->
  (a0 <> 0 /\ a1 <> 0 /\ a2 <> 0 /\ a3 <> 0 /\ b0 <> 0 /\ b1 <> 0 /\ b2 <> 0
   /\ b3 <> 0 /\ c0 <> 0 /\ c1 <> 0 /\ c2 <> 0 /\ c3 <> 0 /\ d0 <> 0
   /\ d1 <> 0 /\ d2 <> 0 /\ d3 <> 0)
  /\ (a0 <> a1 /\ a1 <> a2 /\ a2 <> a3 /\ b0 <> b1 /\ b1 <> b2 /\ b2 <> b3
      /\ c0 <> c1 /\ c1 <> c2 /\ c2 <> c3 /\ d0 <> d1 /\ d1 <> d2 /\ d2 <> d3)
  /\ (a0 <> b0 /\ b0 <> c0 /\ c0 <> d0 /\ a1 <> b1 /\ b1 <> c1 /\ c1 <> d1
      /\ a2 <> b2 /\ b2 <> c2 /\ c2 <> d2 /\ a3 <> b3 /\ b3 <> c3 /\ c3 <> d3).
Proof.
  unfold is_game_over, coords, cell, SIZE.
  cbn [existsb forallb list_prod seq map app Nat.sub Nat.ltb Nat.leb
       Nat.add lookup_total list_lookup_total andb negb].
  intros H.
  match type of H with
  | (if ?c then _ else _) = _ => destruct c eqn:Hz; [discriminate|]
  end.
  repeat match goal with
         | H : (_ || _) = false |- _ =>
             apply orb_false_iff in H; destruct H
         | H : (_ && _) = true |- _ =>
             apply andb_true_iff in H; destruct H
         | H : negb _ = true |- _ => apply negb_true_iff in H
         | H : (_ =? _) = false |- _ => apply Z.eqb_neq in H
         end.
  repeat split; assumption.
Qed.

Lemma terminal_slide_fixed direction b s :
  wf b -> is_game_over b = true -> (slide_phase direction b s).1 = b.
Proof.
  intros Hwf Hover. rewrite slide_phase_closed by assumption. cbn [fst].
  board_cells b. apply is_game_over_cells in Hover.
  destruct Hover as (Hz & Hr & Hc).
  decompose [and] Hz. decompose [and] Hr. decompose [and] Hc.
  unfold view_in, view_out.
  destruct (direction =? 0); [|destruct (direction =? 1);
                                [|destruct (direction =? 2)]];
    unfold transpose, fliplr, tabulate, cell, SIZE;
    cbn [seq map lookup_total list_lookup_total Nat.sub];
    rewrite !slid_fixed4 by congruence; reflexivity.
Qed.

(** C7. On a board for which [is_game_over] holds, a move in any
    direction returns normally with [False] and leaves the board, the score
    and [game_over] as they were. *)
Theorem terminal_move_noop direction d g :
  wf (board g) -> is_game_over (board g) = true ->
  move direction d g = Ok (false, g).
Proof.
  intros Hwf Hover. apply move_fixed; [assumption|].
  apply terminal_slide_fixed; assumption.
Qed.

Lemma terminal_move_noop_witness :
  let g := mkGame [[2; 4; 2; 4]; [4; 2; 4; 2]; [2; 4; 2; 4]; [4; 2; 4; 2]] 40 false in
  is_game_over (board g) = true
  /\ move 0 (mkDraw 3 false) g = Ok (false, g)
  /\ move 1 (mkDraw 3 false) g = Ok (false, g)
  /\ move 2 (mkDraw 3 false) g = Ok (false, g)
  /\ move 3 (mkDraw 3 false) g = Ok (false, g).
Proof.
  intros g.
  assert (Hwf : wf (board g)) by (repeat constructor).
  assert (Hover : is_game_over (board g) = true) by reflexivity.
  split; [exact Hover|].
  split; [exact (terminal_move_noop 0 (mkDraw 3 false) g Hwf Hover)|].
  split; [exact (terminal_move_noop 1 (mkDraw 3 false) g Hwf Hover)|].
  split; [exact (terminal_move_noop 2 (mkDraw 3 false) g Hwf Hover)|].
  exact (terminal_move_noop 3 (mkDraw 3 false) g Hwf Hover).
Defined.

(** ** Spawning a tile *)

Lemma random_choice_elem {A : Type} (d : Draw) (l : list A) :
  l <> [] -> exists x, random_choice d l = Ok x /\ In x l.
Proof.
  intros Hl. unfold random_choice.
  assert (Hlt : (pick d mod length l < length l)%nat).
  { apply Nat.mod_upper_bound. destruct l; [congruence|discriminate]. }
  destruct (lookup_lt_is_Some_2 l _ Hlt) as [x Hx]. rewrite Hx.
  exists x. split; [reflexivity|].
  apply list_elem_of_In, list_elem_of_lookup. eauto.
Qed.

Lemma empty_cells_spec b i j :
  In (i, j) (empty_cells b) <->
  (i < SIZE)%nat /\ (j < SIZE)%nat /\ cell b i j = 0.
Proof.
  unfold empty_cells, coords. rewrite filter_In, in_prod_iff, !in_seq, Z.eqb_eq.
  lia.
Qed.

Lemma add_new_tile_spawns d b :
  empty_cells b <> [] ->
  exists i j v,
    (i < SIZE)%nat /\ (j < SIZE)%nat /\ cell b i j = 0 /\ (v = 2 \/ v = 4)
    /\ add_new_tile d b = Ok (set_cell b i j v).
Proof.
  intros He. unfold add_new_tile.
  destruct (random_choice_elem d (empty_cells b) He) as ([i j] & Hc & Hin).
  destruct (empty_cells b) as [|c l] eqn:E; [congruence|].
  rewrite Hc. rewrite <- E in Hin. apply empty_cells_spec in Hin.
  destruct Hin as (Hi & Hj & Hz).
  exists i, j, (if below_09 d then 2 else 4).
  repeat split; try assumption.
  destruct (below_09 d); auto.
Qed.

Lemma add_new_tile_full d b : empty_cells b = [] -> add_new_tile d b = Ok b.
Proof. intros He. unfold add_new_tile. rewrite He. reflexivity. Qed.

(** [add_new_tile] never raises: [random.choice] is guarded. *)
Lemma add_new_tile_returns d b : exists b', add_new_tile d b = Ok b'.
Proof.
  destruct (empty_cells b) eqn:E.
  - exists b. apply add_new_tile_full, E.
  - destruct (add_new_tile_spawns d b) as (i & j & v & _ & _ & _ & _ & H);
      [congruence|eauto].
Qed.

Lemma non_zeros_insert l : forall j v,
  l !! j = Some 0 -> v <> 0 ->
  length (non_zeros (<[j := v]> l)) = S (length (non_zeros l)).
Proof.
  induction l as [|x l IH]; intros [|j] v Hj Hv; try discriminate.
  - injection Hj as ->. change (<[0%nat := v]> (0 :: l)) with (v :: l).
    rewrite !non_zeros_cons.
    apply Z.eqb_neq in Hv. rewrite Hv. reflexivity.
  - change (<[S j := v]> (x :: l)) with (x :: <[j := v]> l).
    rewrite !non_zeros_cons.
    specialize (IH j v Hj Hv). destruct (x =? 0); cbn [length]; lia.
Qed.

Lemma count_nonzero_insert b : forall i row row',
  b !! i = Some row ->
  length (non_zeros row') = S (length (non_zeros row)) ->
  count_nonzero (<[i := row']> b) = S (count_nonzero b).
Proof.
  unfold count_nonzero.
  induction b as [|r b IH]; intros [|i] row row' Hi Hrow; try discriminate.
  - injection Hi as ->. change (<[0%nat := row']> (row :: b)) with (row' :: b).
    cbn [concat]. rewrite !non_zeros_app, !length_app. lia.
  - change (<[S i := row']> (r :: b)) with (r :: <[i := row']> b).
    cbn [concat]. specialize (IH i row row' Hi Hrow).
    rewrite !non_zeros_app, !length_app. lia.
Qed.

Lemma cell_lookup b i j v :
  wf b -> (i < SIZE)%nat -> (j < SIZE)%nat -> cell b i j = v ->
  exists row, b !! i = Some row /\ row !! j = Some v.
Proof.
  intros [Hl Hr] Hi Hj Hc. unfold cell in Hc.
  assert (Hrow : b !! i = Some (b !!! i))
    by (apply list_lookup_lookup_total_lt; lia).
  exists (b !!! i). split; [exact Hrow|].
  rewrite <- Hc. apply list_lookup_lookup_total_lt.
  rewrite List.Forall_forall in Hr. rewrite (Hr (b !!! i)); [exact Hj|].
  apply list_elem_of_In, list_elem_of_lookup. eauto.
Qed.

Lemma set_cell_count b i j v :
  wf b -> (i < SIZE)%nat -> (j < SIZE)%nat -> cell b i j = 0 -> v <> 0 ->
  count_nonzero (set_cell b i j v) = S (count_nonzero b).
Proof.
  intros Hwf Hi Hj Hc Hv.
  destruct (cell_lookup b i j 0 Hwf Hi Hj Hc) as (row & Hrow & Hcell).
  unfold set_cell. apply (count_nonzero_insert b i row); [exact Hrow|].
  rewrite (list_lookup_total_correct _ _ _ Hrow).
  apply non_zeros_insert; assumption.
Qed.

Lemma set_cell_cell b i j v :
  wf b -> (i < SIZE)%nat -> (j < SIZE)%nat -> cell (set_cell b i j v) i j = v.
Proof.
  intros Hwf Hi Hj.
  destruct (cell_lookup b i j _ Hwf Hi Hj eq_refl) as (row & Hrow & Hcell).
  unfold set_cell, cell.
  apply lookup_lt_Some in Hrow as Hib. apply lookup_lt_Some in Hcell as Hjb.
  rewrite (list_lookup_total_correct _ _ _ Hrow).
  rewrite list_lookup_total_insert, decide_True by auto.
  rewrite list_lookup_total_insert, decide_True by auto. reflexivity.
Qed.

Lemma set_cell_wf b i j v : wf b -> wf (set_cell b i j v).
Proof.
  intros [Hl Hr]. unfold set_cell.
  destruct (decide (i < length b)%nat) as [Hi|Hi].
  - split; [rewrite length_insert; exact Hl|].
    apply Forall_insert; [exact Hr|]. rewrite length_insert.
    rewrite List.Forall_forall in Hr. apply Hr.
    apply list_elem_of_In, list_elem_of_lookup. exists i.
    apply list_lookup_lookup_total_lt. exact Hi.
  - rewrite list_insert_ge by lia. split; assumption.
Qed.

Lemma add_new_tile_wf d b b' : wf b -> add_new_tile d b = Ok b' -> wf b'.
Proof.
  intros Hwf H. destruct (empty_cells b) eqn:E.
  - rewrite add_new_tile_full in H by assumption. injection H as <-. exact Hwf.
  - destruct (add_new_tile_spawns d b) as (i & j & v & _ & _ & _ & _ & H');
      [congruence|].
    rewrite H' in H. injection H as <-. apply set_cell_wf, Hwf.
Qed.

(** ** An effective move leaves an empty cell *)

Lemma full_board_nonzero b :
  wf b -> empty_cells b = [] -> Forall (Forall nonzero) b.
Proof.
  intros [Hl Hr] He. apply Forall_lookup. intros i row Hrow.
  apply Forall_lookup. intros j v Hv.
  assert (Hlen : length row = SIZE).
  { rewrite List.Forall_forall in Hr. apply Hr.
    apply list_elem_of_In, list_elem_of_lookup. eauto. }
  intros ->.
  assert (Hin : In (i, j) (empty_cells b)); [|rewrite He in Hin; exact Hin].
  apply empty_cells_spec.
  apply lookup_lt_Some in Hrow as Hi. apply lookup_lt_Some in Hv as Hj.
  repeat split; try lia.
  unfold cell. rewrite (list_lookup_total_correct _ _ _ Hrow).
  apply list_lookup_total_correct, Hv.
Qed.

Lemma view_in_nonzero direction b :
  wf b -> Forall (Forall nonzero) b ->
  Forall (Forall nonzero) (view_in direction b).
Proof.
  intros Hwf H. board_cells b.
  repeat match goal with
         | H : Forall _ (_ :: _) |- _ => inversion H; subst; clear H
         end.
  unfold view_in.
  destruct (direction =? 0); [|destruct (direction =? 1);
                                [|destruct (direction =? 2)]];
    repeat constructor; assumption.
Qed.

Lemma full_rows_fixed X :
  wf X -> Forall (Forall nonzero) (map slid X) -> map slid X = X.
Proof.
  intros [_ Hr]. induction Hr as [|row X Hrow _ IH]; [reflexivity|].
  cbn [map]. intros H. inversion H; subst.
  f_equal; [apply slid_full_fixed; assumption|auto].
Qed.

Lemma moved_has_empty direction b s :
  wf b -> (slide_phase direction b s).1 <> b ->
  empty_cells (slide_phase direction b s).1 <> [].
Proof.
  intros Hwf Hne He. apply Hne. clear Hne.
  rewrite slide_phase_closed in * by assumption. cbn [fst] in *.
  set (X := view_in direction b) in *.
  assert (HX : wf X) by apply view_in_wf, Hwf.
  assert (HY : wf (map slid X)) by apply map_slid_wf, HX.
  pose proof (full_board_nonzero _ (view_out_wf direction _ HY) He) as Hnz.
  apply (view_in_nonzero direction) in Hnz; [|apply view_out_wf, HY].
  rewrite view_in_out in Hnz by exact HY.
  rewrite (full_rows_fixed X HX Hnz). apply view_out_in, Hwf.
Qed.

Lemma slide_phase_wf direction b s : wf b -> wf (slide_phase direction b s).1.
Proof.
  intros Hwf. rewrite slide_phase_closed by assumption. cbn [fst].
  apply view_out_wf, map_slid_wf, view_in_wf, Hwf.
Qed.

Lemma array_equal_false a b : array_equal a b = false <-> a <> b.
Proof. unfold array_equal. apply bool_decide_eq_false. Qed.

(** How [move] ends, by the comparison with [board_before]. *)
Lemma move_effective direction d g :
  (slide_phase direction (board g) (score g)).1 <> board g ->
  move direction d g =
  b' ← add_new_tile d (slide_phase direction (board g) (score g)).1;
  Ok (true, mkGame b' (slide_phase direction (board g) (score g)).2
                   (if is_game_over b' then true else game_over g)).
Proof.
  intros Hne. unfold move.
  destruct (slide_phase direction (board g) (score g)) as [b s] eqn:E.
  cbn [fst snd] in *.
  assert (Hf : array_equal (board g) b = false)
    by (apply array_equal_false; congruence).
  rewrite Hf. reflexivity.
Qed.

Lemma move_true_effective direction d g g' :
  wf (board g) -> move direction d g = Ok (true, g') ->
  (slide_phase direction (board g) (score g)).1 <> board g.
Proof.
  intros Hwf Hm Heq.
  rewrite (move_fixed direction d g Hwf Heq) in Hm. discriminate.
Qed.

(** C8. After an effective move the board has exactly one more non-zero
    cell than right after the slide/merge: a cell that was empty then (one
    always is) now holds 2 or 4, and no other cell differs. *)
Theorem spawn_after_effective_move direction d g g' :
  wf (board g) ->
  move direction d g = Ok (true, g') ->
  let slid_board := (slide_phase direction (board g) (score g)).1 in
  empty_cells slid_board <> []
  /\ count_nonzero (board g') = S (count_nonzero slid_board)
  /\ exists i j v,
       (i < SIZE)%nat /\ (j < SIZE)%nat /\ cell slid_board i j = 0
       /\ (v = 2 \/ v = 4) /\ cell (board g') i j = v
       /\ board g' = set_cell slid_board i j v.
Proof.
  intros Hwf Hm slid_board.
  pose proof (move_true_effective direction d g g' Hwf Hm) as Hne.
  pose proof (moved_has_empty direction _ (score g) Hwf Hne) as He.
  pose proof (slide_phase_wf direction _ (score g) Hwf) as Hwf'.
  fold slid_board in Hne, He, Hwf'.
  split; [exact He|].
  rewrite move_effective in Hm by exact Hne. fold slid_board in Hm.
  destruct (add_new_tile_spawns d slid_board He)
    as (i & j & v & Hi & Hj & Hz & Hv & Hadd).
  rewrite Hadd in Hm. cbn in Hm. injection Hm as <-. cbn [board].
  split.
  - apply set_cell_count; auto. destruct Hv; lia.
  - exists i, j, v. repeat split; auto. apply set_cell_cell; auto.
Qed.

Lemma spawn_after_effective_move_witness :
  let g := mkGame [[2; 2; 0; 0]; [0; 0; 0; 0]; [0; 4; 0; 0]; [0; 0; 0; 0]] 0 false in
  let g' := mkGame [[4; 0; 0; 0]; [0; 0; 2; 0]; [4; 0; 0; 0]; [0; 0; 0; 0]] 4 false in
  move 3 (mkDraw 5 true) g = Ok (true, g')
  /\ count_nonzero (board g') = S (count_nonzero (slide_phase 3 (board g) (score g)).1).
Proof.
  intros g g'.
  assert (Hm : move 3 (mkDraw 5 true) g = Ok (true, g')) by reflexivity.
  split; [exact Hm|].
  refine (proj1 (proj2 (spawn_after_effective_move 3 (mkDraw 5 true) g g' _ Hm))).
  repeat constructor.
Defined.

(** ** Machine arithmetic on the score *)

Lemma wrap_add_l x y : wrap (wrap x + y) = wrap (x + y).
Proof.
  unfold wrap. f_equal.
  replace ((x + 2 ^ (INT_BITS - 1)) mod 2 ^ INT_BITS - 2 ^ (INT_BITS - 1) + y
           + 2 ^ (INT_BITS - 1))
    with ((x + 2 ^ (INT_BITS - 1)) mod 2 ^ INT_BITS + y) by lia.
  rewrite Zplus_mod_idemp_l. f_equal. lia.
Qed.

Lemma wrap_small z :
  - 2 ^ (INT_BITS - 1) <= z < 2 ^ (INT_BITS - 1) -> wrap z = z.
Proof.
  unfold wrap, INT_BITS. intros H. simpl in *.
  rewrite Z.mod_small; lia.
Qed.

Lemma add_all_Permutation l1 l2 :
  Permutation l1 l2 -> forall s, add_all l1 s = add_all l2 s.
Proof.
  induction 1 as [|x l1 l2 _ IH|x y l|l1 l2 l3 _ IH1 _ IH2]; intros s.
  - reflexivity.
  - unfold add_all in *. cbn [fold_left]. apply IH.
  - unfold add_all. cbn [fold_left]. f_equal.
    rewrite !wrap_add_l. f_equal. lia.
  - rewrite IH1. apply IH2.
Qed.

(** ** Direction 2 against direction 0 *)

Lemma view_in_2_rev b : wf b -> view_in 2 b = rev (view_in 0 b).
Proof. intros Hwf. board_cells b. reflexivity. Qed.

Lemma view_out_2_rev b : wf b -> view_out 2 (rev b) = view_out 0 b.
Proof. intros Hwf. board_cells b. reflexivity. Qed.

(** C2. On every board, the slide/merge of [move(2)] gives the board and
    the score that the slide/merge of [move(0)] gives: both compact every
    column toward row 0 and scan it from the top. *)
Theorem move_down_slides_as_up b s :
  wf b -> slide_phase 2 b s = slide_phase 0 b s.
Proof.
  intros Hwf. rewrite !slide_phase_closed by assumption.
  rewrite (view_in_2_rev b Hwf). set (X := view_in 0 b).
  assert (HX : wf X) by apply view_in_wf, Hwf.
  apply pair_equal_spec. split.
  - rewrite map_rev. apply view_out_2_rev, map_slid_wf, HX.
  - apply add_all_Permutation. apply Permutation_flat_map.
    apply Permutation_sym, Permutation_rev.
Qed.

Lemma move_down_slides_as_up_witness :
  let b := [[2; 0; 0; 2]; [0; 4; 0; 0]; [0; 4; 8; 0]; [2; 0; 8; 0]] in
  slide_phase 2 b 0 = slide_phase 0 b 0
  /\ slide_phase 0 b 0 =
     ([[4; 8; 16; 2]; [0; 0; 0; 0]; [0; 0; 0; 0]; [0; 0; 0; 0]], 28).
Proof.
  split; [|reflexivity].
  apply move_down_slides_as_up. repeat constructor.
Defined.

(** ** Directions outside 0..3 *)

Lemma move_returns direction d g : exists r, move direction d g = Ok r.
Proof.
  unfold move. destruct (slide_phase direction (board g) (score g)) as [b s].
  destruct (negb (array_equal (board g) b)); [|eauto].
  destruct (add_new_tile_returns d b) as [b' ->]. cbn. eauto.
Qed.

(** C3, as the code has it. [move] has no check of [direction]: every
    value other than 0, 1 and 2 -- 3 and the values outside the four
    directions alike -- takes no view, so the call is the slide/merge to
    the left, and it returns normally. *)
Theorem invalid_direction_slides_left direction d g :
  direction <> 0 -> direction <> 1 -> direction <> 2 ->
  move direction d g = move 3 d g
  /\ exists r, move direction d g = Ok r.
Proof.
  intros H0 H1 H2. split; [|apply move_returns].
  unfold move, slide_phase, view_in, view_out.
  apply Z.eqb_neq in H0, H1, H2. rewrite H0, H1, H2. reflexivity.
Qed.

Lemma invalid_direction_slides_left_witness :
  let g := mkGame [[0; 2; 0; 2]; [0; 0; 0; 0]; [0; 0; 0; 0]; [0; 0; 0; 0]] 0 false in
  move 7 (mkDraw 0 true) g = move 3 (mkDraw 0 true) g
  /\ exists r, move 7 (mkDraw 0 true) g = Ok r.
Proof.
  apply invalid_direction_slides_left; discriminate.
Defined.

(** C3, as stated, fails: [move(7)] is not rejected, it slides to the
    left, merges, adds to the score and spawns a tile. *)
Lemma invalid_direction_not_rejected :
  let g := mkGame [[0; 2; 0; 2]; [0; 0; 0; 0]; [0; 0; 0; 0]; [0; 0; 0; 0]] 0 false in
  move 7 (mkDraw 0 true) g =
    Ok (true, mkGame [[4; 2; 0; 0]; [0; 0; 0; 0]; [0; 0; 0; 0]; [0; 0; 0; 0]] 4 false)
  /\ ~ (exists e, move 7 (mkDraw 0 true) g = Raise e).
Proof. split; [reflexivity|]. intros [e H]. discriminate H. Qed.

(** ** [reset] *)

Lemma set_cell_Forall (P : Z -> Prop) b i j v :
  Forall (Forall P) b -> P v -> Forall (Forall P) (set_cell b i j v).
Proof.
  intros Hb Hv. unfold set_cell. apply Forall_insert; [exact Hb|].
  apply Forall_insert; [|exact Hv].
  destruct (b !! i) as [row|] eqn:E.
  - rewrite (list_lookup_total_correct _ _ _ E).
    rewrite Forall_lookup in Hb. eapply Hb, E.
  - rewrite list_lookup_total_alt, E. constructor.
Qed.

Lemma full_board_count b :
  wf b -> empty_cells b = [] -> count_nonzero b = (SIZE * SIZE)%nat.
Proof.
  intros Hwf He. pose proof (full_board_nonzero b Hwf He) as Hnz.
  board_cells b. unfold count_nonzero.
  rewrite non_zeros_id; [reflexivity|].
  repeat match goal with
         | H : Forall _ (_ :: _) |- _ => inversion H; subst; clear H
         end.
  repeat constructor; assumption.
Qed.

Lemma zeros_wf : wf zeros.
Proof. apply tabulate_wf. Qed.

Lemma has_empty_not_over b :
  empty_cells b <> [] -> wf b -> is_game_over b = false.
Proof.
  intros He Hwf. destruct (is_game_over b) eqn:Hover; [|reflexivity].
  exfalso. apply He. board_cells b.
  apply is_game_over_cells in Hover. destruct Hover as (Hz & _).
  decompose [and] Hz.
  unfold empty_cells, coords, cell, SIZE.
  cbn [list_prod seq map app lookup_total list_lookup_total List.filter].
  repeat match goal with
         | H : ?x <> 0 |- _ => apply Z.eqb_neq in H; rewrite H
         end.
  reflexivity.
Qed.

(** C10. [reset], from any state, returns a state whose board has exactly
    two non-zero cells, every cell being 0, 2 or 4, whose score is 0 and
    whose [game_over] flag is false (and the board is not terminal). *)
Theorem reset_two_tiles g0 d1 d2 :
  exists g,
    reset g0 d1 d2 = Ok g
    /\ wf (board g)
    /\ count_nonzero (board g) = 2%nat
    /\ Forall (Forall tile) (board g)
    /\ score g = 0
    /\ game_over g = false
    /\ is_game_over (board g) = false.
Proof.
  unfold reset.
  destruct (add_new_tile_spawns d1 zeros)
    as (i1 & j1 & v1 & Hi1 & Hj1 & Hz1 & Hv1 & ->); [discriminate|].
  cbn [mbind result_bind].
  set (b1 := set_cell zeros i1 j1 v1).
  assert (Hwf1 : wf b1) by apply set_cell_wf, zeros_wf.
  assert (Hc1 : count_nonzero b1 = 1%nat).
  { unfold b1. rewrite set_cell_count; auto using zeros_wf. destruct Hv1; lia. }
  assert (He1 : empty_cells b1 <> []).
  { intros He. rewrite (full_board_count b1 Hwf1 He) in Hc1. discriminate. }
  destruct (add_new_tile_spawns d2 b1 He1)
    as (i2 & j2 & v2 & Hi2 & Hj2 & Hz2 & Hv2 & ->).
  set (b2 := set_cell b1 i2 j2 v2).
  assert (Hwf2 : wf b2) by apply set_cell_wf, Hwf1.
  assert (Hc2 : count_nonzero b2 = 2%nat).
  { unfold b2. rewrite set_cell_count; auto. destruct Hv2; lia. }
  exists (mkGame b2 0 false). cbn [board score game_over].
  repeat split; try assumption; try apply Hwf2.
  - unfold b2, b1. apply set_cell_Forall; [apply set_cell_Forall|].
    + repeat constructor.
    + unfold tile. tauto.
    + unfold tile. tauto.
  - apply has_empty_not_over; [|exact Hwf2].
    intros He. rewrite (full_board_count b2 Hwf2 He) in Hc2. discriminate.
Qed.

(** ** The score *)

Lemma sumZ_cons v l : sumZ (v :: l) = v + sumZ l.
Proof. reflexivity. Qed.

Lemma sumZ_app l1 l2 : sumZ (l1 ++ l2) = sumZ l1 + sumZ l2.
Proof. induction l1 as [|x l1 IH]; simpl; [reflexivity|]. rewrite IH. lia. Qed.

Lemma sumZ_non_zeros l : sumZ (non_zeros l) = sumZ l.
Proof.
  induction l as [|x l IH]; [reflexivity|]. rewrite non_zeros_cons.
  destruct (x =? 0) eqn:E; simpl; rewrite IH; [apply Z.eqb_eq in E|]; lia.
Qed.

Lemma non_zeros_positive l :
  Forall (fun v => 0 <= v) l -> Forall (fun v => 0 < v) (non_zeros l).
Proof.
  induction 1 as [|x l Hx _ IH]; [constructor|]. rewrite non_zeros_cons.
  destruct (x =? 0) eqn:E; [exact IH|].
  apply Z.eqb_neq in E. constructor; [lia|exact IH].
Qed.

Lemma pair_trace_sum l : forall k,
  Forall (fun v => 0 < v) l ->
  Forall (fun v => 0 < v) (map snd (pair_trace k l))
  /\ 2 * sumZ (map snd (pair_trace k l)) <= sumZ l.
Proof.
  induction l as [| |a b r IHr IHbr] using pair_ind; intros k Hl.
  - split; [constructor|simpl; lia].
  - inversion Hl; subst. split; [constructor|simpl; lia].
  - inversion Hl as [|? ? Ha Hl1]; subst.
    inversion Hl1 as [|? ? Hb Hl2]; subst.
    rewrite pair_trace_cons2. destruct (a =? b) eqn:E.
    + apply Z.eqb_eq in E. subst b.
      destruct (IHr (S (S k)) Hl2) as [Hp Hs].
      split; [constructor; assumption|]. simpl in *. lia.
    + destruct (IHbr (S k) Hl1) as [Hp Hs].
      split; [assumption|]. simpl in *. lia.
Qed.

Lemma row_merges_closed row :
  row_merges row = map snd (pair_trace 0 (non_zeros row)).
Proof.
  unfold row_merges. rewrite merge_trace_closed by apply non_zeros_nonzero.
  reflexivity.
Qed.

Lemma merges_sum X :
  Forall (Forall (fun v => 0 <= v)) X ->
  Forall (fun v => 0 < v) (flat_map row_merges X)
  /\ 2 * sumZ (flat_map row_merges X) <= sumZ (concat X).
Proof.
  induction 1 as [|row X Hrow _ [IHp IHs]]; [split; [constructor|simpl; lia]|].
  cbn [flat_map concat]. rewrite !sumZ_app, row_merges_closed.
  destruct (pair_trace_sum (non_zeros row) 0 (non_zeros_positive row Hrow))
    as [Hp Hs].
  rewrite sumZ_non_zeros in Hs.
  split; [apply Forall_app; split; assumption|lia].
Qed.

Lemma gains_flat X : flat_map gains X = map merged (flat_map row_merges X).
Proof.
  induction X as [|row X IH]; [reflexivity|].
  cbn [flat_map]. rewrite map_app, IH. reflexivity.
Qed.

Lemma sumZ_bound l v :
  Forall (fun v => 0 < v) l -> In v l -> v <= sumZ l.
Proof.
  induction 1 as [|x l Hx Hl IH]; [intros []|].
  assert (0 <= sumZ l).
  { clear IH. induction Hl; simpl; lia. }
  intros [->|Hin]; simpl; [lia|]. specialize (IH Hin). lia.
Qed.

Lemma merged_exact l :
  Forall (fun v => 0 < v) l -> 2 * sumZ l < 2 ^ (INT_BITS - 1) ->
  map merged l = map (fun v => 2 * v) l.
Proof.
  intros Hl Hs. apply map_ext_in. intros v Hv.
  pose proof (sumZ_bound l v Hl Hv).
  rewrite List.Forall_forall in Hl. specialize (Hl v Hv).
  unfold merged. rewrite wrap_small; lia.
Qed.

Lemma add_all_exact l : forall s,
  Forall (fun v => 0 <= v) l -> 0 <= s -> s + sumZ l < 2 ^ (INT_BITS - 1) ->
  add_all l s = s + sumZ l.
Proof.
  induction l as [|v l IH]; intros s Hl Hs Hb; [simpl; lia|].
  inversion Hl as [|? ? Hv Hl']; subst.
  assert (0 <= sumZ l) by (clear - Hl'; induction Hl'; simpl; lia).
  unfold add_all in *. cbn [fold_left]. simpl in Hb.
  rewrite wrap_small by lia. rewrite IH; simpl; try assumption; lia.
Qed.

Lemma view_in_sum direction b :
  wf b -> sumZ (concat (view_in direction b)) = sumZ (concat b).
Proof.
  intros Hwf. board_cells b. unfold view_in.
  destruct (direction =? 0); [|destruct (direction =? 1);
                                [|destruct (direction =? 2)]];
    unfold transpose, fliplr, tabulate, cell, SIZE; simpl; lia.
Qed.

Lemma view_in_Forall (P : Z -> Prop) direction b :
  wf b -> Forall (Forall P) b -> Forall (Forall P) (view_in direction b).
Proof.
  intros Hwf H. board_cells b.
  repeat match goal with
         | H : Forall _ (_ :: _) |- _ => inversion H; subst; clear H
         end.
  unfold view_in.
  destruct (direction =? 0); [|destruct (direction =? 1);
                                [|destruct (direction =? 2)]];
    repeat constructor; assumption.
Qed.

Lemma move_score direction d g moved g' :
  move direction d g = Ok (moved, g') ->
  score g' = (slide_phase direction (board g) (score g)).2.
Proof.
  unfold move. destruct (slide_phase direction (board g) (score g)) as [b s].
  destruct (negb (array_equal (board g) b)).
  - destruct (add_new_tile d b) as [b'|e]; cbn; [|discriminate].
    intros H. injection H as _ <-. reflexivity.
  - intros H. injection H as _ <-. reflexivity.
Qed.

Lemma slide_phase_score direction g :
  wf (board g) -> in_range g ->
  let merges := move_merges direction (board g) in
  Forall (fun v => 0 < v) merges
  /\ (slide_phase direction (board g) (score g)).2
     = score g + 2 * sumZ merges.
Proof.
  intros Hwf (Hcells & Hs & Hb) merges.
  rewrite slide_phase_closed by assumption.
  cbn [snd]. rewrite gains_flat. fold (move_merges direction (board g)).
  fold merges.
  destruct (merges_sum (view_in direction (board g))) as [Hp Hsum];
    [apply view_in_Forall; assumption|].
  fold (move_merges direction (board g)) in Hp, Hsum. fold merges in Hp, Hsum.
  rewrite view_in_sum in Hsum by assumption.
  assert (Hdouble : sumZ (map (fun v => 2 * v) merges) = 2 * sumZ merges).
  { clear. induction merges as [|v l IH]; simpl; lia. }
  assert (H0 : 0 <= sumZ merges).
  { clear - Hp. induction Hp; simpl; lia. }
  rewrite merged_exact by (try assumption; lia).
  rewrite add_all_exact; try lia.
  - split; [exact Hp|lia].
  - apply List.Forall_map. eapply List.Forall_impl; [|exact Hp].
    simpl. intros; lia.
Qed.

(** ** Direction 2 against the direct slide down *)

(** C1, where the code departs from it. With two tiles 2 in the first
    column, rows 0 and 1, [move(2)] ("down") joins them into a 4 at the top
    of the column, where sliding down puts the 4 at the bottom; sliding up
    is what [move(2)] does here. The view [move(2)] takes is the flip
    followed by the transposition; the transposition followed by the flip,
    with the flip and the transposition to come back, gives the direct
    slide down. *)
Theorem move_down_is_not_direct_down :
  let b := [[2; 0; 0; 0]; [2; 0; 0; 0]; [0; 0; 0; 0]; [0; 0; 0; 0]] in
  slide_phase (dir_code Down) b 0
    = ([[4; 0; 0; 0]; [0; 0; 0; 0]; [0; 0; 0; 0]; [0; 0; 0; 0]], 4)
  /\ direct_slide Down b
    = ([[0; 0; 0; 0]; [0; 0; 0; 0]; [0; 0; 0; 0]; [4; 0; 0; 0]], 4)
  /\ direct_slide Up b
    = ([[4; 0; 0; 0]; [0; 0; 0; 0]; [0; 0; 0; 0]; [0; 0; 0; 0]], 4)
  /\ (slide_phase (dir_code Down) b 0).1 <> (direct_slide Down b).1
  /\ view_in (dir_code Down) b = transpose (fliplr b)
  /\ view_in (dir_code Down) b <> fliplr (transpose b)
  /\ transpose (fliplr (slide_rows (fliplr (transpose b)) 0).1)
     = (direct_slide Down b).1.
Proof.
  repeat split; try reflexivity; discriminate.
Qed.

(** ** Cell values: the invariant of the reachable boards *)

Lemma count_ge_cons t v l :
  count_ge t (v :: l) = ((if (t <=? v)%Z then 1 else 0) + count_ge t l)%nat.
Proof. unfold count_ge. simpl. destruct (t <=? v); reflexivity. Qed.

Lemma count_ge_app t l1 l2 :
  count_ge t (l1 ++ l2) = (count_ge t l1 + count_ge t l2)%nat.
Proof. unfold count_ge. rewrite List.filter_app, length_app. reflexivity. Qed.

Lemma count_ge_length t l : (count_ge t l <= length l)%nat.
Proof. apply List.filter_length_le. Qed.

Lemma count_ge_zeros t n : 0 < t -> count_ge t (repeat 0 n) = 0%nat.
Proof.
  intros Ht. induction n as [|n IH]; [reflexivity|].
  cbn [repeat]. rewrite count_ge_cons, IH.
  destruct (t <=? 0) eqn:E; [apply Z.leb_le in E; lia|reflexivity].
Qed.

Lemma count_ge_non_zeros t l : 0 < t -> count_ge t (non_zeros l) = count_ge t l.
Proof.
  intros Ht. induction l as [|v l IH]; [reflexivity|].
  rewrite non_zeros_cons, count_ge_cons.
  destruct (v =? 0) eqn:E.
  - apply Z.eqb_eq in E. subst v.
    destruct (t <=? 0) eqn:E'; [apply Z.leb_le in E'; lia|]. exact IH.
  - rewrite count_ge_cons, IH. reflexivity.
Qed.

Lemma count_ge_none t l : count_ge t l = 0%nat -> Forall (fun v => v < t) l.
Proof.
  induction l as [|v l IH]; [constructor|].
  rewrite count_ge_cons. destruct (t <=? v) eqn:E; [discriminate|].
  intros H. apply Z.leb_gt in E. constructor; [exact E|apply IH, H].
Qed.

(** The bound on merged tiles, row by row. *)
Lemma pair_up_crowd t l :
  0 < t -> Forall (fun v => 0 <= v < 2 ^ (INT_BITS - 2)) l ->
  (2 * count_ge (2 * t) (pair_up l) <= count_ge t l + count_ge (2 * t) l)%nat.
Proof.
  intros Ht. induction l as [| |a b r IHr IHbr] using pair_ind; intros Hl.
  - simpl. lia.
  - cbn [pair_up]. rewrite !count_ge_cons. cbn [count_ge List.filter length].
    destruct (2 * t <=? a) eqn:E1; destruct (t <=? a) eqn:E2; lia.
  - inversion Hl as [|? ? Ha Hl1]; subst.
    inversion Hl1 as [|? ? Hb Hl2]; subst.
    rewrite pair_up_cons2. destruct (a =? b) eqn:E.
    + apply Z.eqb_eq in E. subst b. specialize (IHr Hl2).
      assert (Hm : merged a = 2 * a).
      { unfold merged. rewrite wrap_small; unfold INT_BITS in *; simpl in *; lia. }
      rewrite Hm, !count_ge_cons.
      assert (H2 : (2 * t <=? 2 * a) = (t <=? a)).
      { destruct (t <=? a) eqn:E; [apply Z.leb_le in E; apply Z.leb_le; lia|].
        apply Z.leb_gt in E. apply Z.leb_gt. lia. }
      rewrite H2.
      destruct (2 * t <=? 0) eqn:E0; [apply Z.leb_le in E0; lia|].
      destruct (t <=? a); destruct (2 * t <=? a); lia.
    + specialize (IHbr Hl1). rewrite !count_ge_cons in *.
      destruct (2 * t <=? a) eqn:E1; destruct (t <=? a) eqn:E2; lia.
Qed.

Lemma non_zeros_Forall (P : Z -> Prop) l : Forall P l -> Forall P (non_zeros l).
Proof.
  intros H. rewrite List.Forall_forall in *. intros v Hv.
  apply H. unfold non_zeros in Hv. apply filter_In in Hv. tauto.
Qed.

Lemma slid_crowd t row :
  0 < t -> Forall (fun v => 0 <= v < 2 ^ (INT_BITS - 2)) row ->
  (2 * count_ge (2 * t) (slid row)
   <= count_ge t row + count_ge (2 * t) row)%nat.
Proof.
  intros Ht Hrow. unfold slid.
  rewrite count_ge_app, count_ge_zeros, count_ge_non_zeros by lia.
  pose proof (pair_up_crowd t (non_zeros row) Ht (non_zeros_Forall _ _ Hrow)).
  rewrite !count_ge_non_zeros in * by lia. lia.
Qed.

Lemma rows_crowd t X :
  0 < t -> Forall (Forall (fun v => 0 <= v < 2 ^ (INT_BITS - 2))) X ->
  (2 * count_ge (2 * t) (concat (map slid X))
   <= count_ge t (concat X) + count_ge (2 * t) (concat X))%nat.
Proof.
  intros Ht. induction 1 as [|row X Hrow _ IH]; [simpl; lia|].
  cbn [map concat]. rewrite !count_ge_app.
  pose proof (slid_crowd t row Ht Hrow). lia.
Qed.

Lemma view_in_count t direction b :
  wf b -> count_ge t (concat (view_in direction b)) = count_ge t (concat b).
Proof.
  intros Hwf. board_cells b. unfold view_in.
  destruct (direction =? 0); [|destruct (direction =? 1);
                                [|destruct (direction =? 2)]];
    unfold transpose, fliplr, tabulate, cell, SIZE;
    cbn [seq map concat app lookup_total list_lookup_total Nat.sub];
    rewrite !count_ge_cons; lia.
Qed.

Lemma view_out_count t direction b :
  wf b -> count_ge t (concat (view_out direction b)) = count_ge t (concat b).
Proof.
  intros Hwf. board_cells b. unfold view_out.
  destruct (direction =? 0); [|destruct (direction =? 1);
                                [|destruct (direction =? 2)]];
    unfold transpose, fliplr, tabulate, cell, SIZE;
    cbn [seq map concat app lookup_total list_lookup_total Nat.sub];
    rewrite !count_ge_cons; lia.
Qed.

Lemma view_out_Forall (P : Z -> Prop) direction b :
  wf b -> Forall (Forall P) b -> Forall (Forall P) (view_out direction b).
Proof.
  intros Hwf H. board_cells b.
  repeat match goal with
         | H : Forall _ (_ :: _) |- _ => inversion H; subst; clear H
         end.
  unfold view_out.
  destruct (direction =? 0); [|destruct (direction =? 1);
                                [|destruct (direction =? 2)]];
    repeat constructor; assumption.
Qed.

Lemma merged_pow2 v :
  pow2_or_zero v -> v < 2 ^ (INT_BITS - 2) -> pow2_or_zero (merged v).
Proof.
  unfold INT_BITS. intros [->|(e & He & ->)] Hv; [left; reflexivity|].
  right. exists (e + 1). split; [lia|].
  assert (0 < 2 ^ e) by (apply Z.pow_pos_nonneg; lia).
  unfold merged. rewrite wrap_small; unfold INT_BITS; simpl in *; try lia.
  rewrite Z.pow_add_r by lia. lia.
Qed.

Lemma pair_up_pow2 l :
  Forall pow2_or_zero l -> Forall (fun v => v < 2 ^ (INT_BITS - 2)) l ->
  Forall pow2_or_zero (pair_up l).
Proof.
  induction l as [| |a b r IHr IHbr] using pair_ind; intros Hp Hb.
  - constructor.
  - exact Hp.
  - inversion Hp as [|? ? Hpa Hp1]; subst. inversion Hp1; subst.
    inversion Hb as [|? ? Hba Hb1]; subst. inversion Hb1; subst.
    rewrite pair_up_cons2. destruct (a =? b).
    + constructor; [apply merged_pow2; assumption|].
      constructor; [left; reflexivity|auto].
    + constructor; auto.
Qed.

Lemma slid_pow2 row :
  Forall pow2_or_zero row -> Forall (fun v => v < 2 ^ (INT_BITS - 2)) row ->
  Forall pow2_or_zero (slid row).
Proof.
  intros Hp Hb. unfold slid. apply Forall_app. split.
  - apply non_zeros_Forall, pair_up_pow2; apply non_zeros_Forall; assumption.
  - apply Forall_forall. intros v Hv. apply list_elem_of_In, repeat_spec in Hv.
    left. exact Hv.
Qed.

(** The slide/merge keeps the cells zero or powers of two, on any board
    whose cells are below 2^62. *)
Lemma slide_phase_pow2 direction b s :
  wf b -> cells_pow2 b ->
  Forall (Forall (fun v => v < 2 ^ (INT_BITS - 2))) b ->
  cells_pow2 (slide_phase direction b s).1.
Proof.
  intros Hwf Hp Hb. rewrite slide_phase_closed by assumption. cbn [fst].
  unfold cells_pow2.
  apply view_out_Forall; [apply map_slid_wf, view_in_wf, Hwf|].
  apply (view_in_Forall _ direction) in Hp; [|exact Hwf].
  apply (view_in_Forall _ direction) in Hb; [|exact Hwf].
  revert Hp Hb. generalize (view_in direction b). intros X Hp.
  induction Hp as [|row X Hrow _ IH]; intros Hb; [constructor|].
  inversion Hb; subst. cbn [map]. constructor; [apply slid_pow2|]; auto.
Qed.

Lemma pow2_nonneg v : pow2_or_zero v -> 0 <= v.
Proof.
  intros [->|(e & He & ->)]; [lia|]. apply Z.pow_nonneg. lia.
Qed.

Lemma thr_pos k : 0 < thr k.
Proof. unfold thr. apply Z.pow_pos_nonneg; lia. Qed.

Lemma thr_S k : thr (S k) = 2 * thr k.
Proof.
  unfold thr. rewrite Nat2Z.inj_succ, Z.pow_succ_r by lia. reflexivity.
Qed.

Lemma crowd_bound b :
  crowd b -> Forall (fun v => v < 2 ^ 18) (concat b).
Proof.
  intros Hc. apply (count_ge_none (thr 18)).
  specialize (Hc 18%nat). unfold SIZE in Hc. lia.
Qed.

Lemma thr_8 k : (3 <= k)%nat -> 8 <= thr k.
Proof.
  intros Hk. unfold thr. change 8 with (2 ^ 3).
  apply Z.pow_le_mono_r; lia.
Qed.

Lemma Forall_concat_rows (P : Z -> Prop) (b : Board) :
  Forall P (concat b) -> Forall (Forall P) b.
Proof.
  induction b as [|row b IH]; [constructor|].
  cbn [concat]. rewrite Forall_app. intros [H1 H2]. constructor; auto.
Qed.

Lemma wf_concat_length b : wf b -> length (concat b) = (SIZE * SIZE)%nat.
Proof. intros Hwf. board_cells b. reflexivity. Qed.

(** The slide/merge keeps the invariant. *)
Lemma slide_phase_Inv direction b s : Inv b -> Inv (slide_phase direction b s).1.
Proof.
  intros (Hwf & Hp & Hc).
  pose proof (Forall_concat_rows _ _ (crowd_bound b Hc)) as Hb18.
  assert (Hb62 : Forall (Forall (fun v => v < 2 ^ (INT_BITS - 2))) b).
  { eapply List.Forall_impl; [|exact Hb18]. intros row Hrow.
    eapply List.Forall_impl; [|exact Hrow]. unfold INT_BITS. simpl. intros; lia. }
  split; [apply slide_phase_wf, Hwf|].
  split; [apply slide_phase_pow2; assumption|].
  rewrite slide_phase_closed by assumption. cbn [fst].
  intros k Hk.
  rewrite view_out_count by apply map_slid_wf, view_in_wf, Hwf.
  destruct k as [|k]; [lia|].
  assert (Hrange : Forall (Forall (fun v => 0 <= v < 2 ^ (INT_BITS - 2)))
                     (view_in direction b)).
  { apply view_in_Forall; [exact Hwf|].
    unfold cells_pow2 in Hp. rewrite Forall_forall in Hp, Hb62.
    apply Forall_forall. intros row Hrow.
    specialize (Hp row Hrow). specialize (Hb62 row Hrow).
    rewrite Forall_forall in Hp, Hb62. apply Forall_forall. intros v Hv.
    split; [apply pow2_nonneg, Hp, Hv|apply Hb62, Hv]. }
  pose proof (rows_crowd (thr k) _ (thr_pos k) Hrange) as H.
  rewrite <- thr_S, !view_in_count in H by assumption.
  pose proof (Hc (S k) Hk) as H1.
  destruct (decide (k = 2%nat)) as [->|Hk2].
  - pose proof (count_ge_length (thr 2) (concat b)) as H2.
    rewrite wf_concat_length in H2 by assumption. lia.
  - pose proof (Hc k ltac:(unfold SIZE in *; lia)) as H2. lia.
Qed.

Lemma count_ge_insert t l : forall j v,
  v < t -> (count_ge t (<[j := v]> l) <= count_ge t l)%nat.
Proof.
  induction l as [|x l IH]; intros [|j] v Hv; try (simpl; lia).
  - change (<[0%nat := v]> (x :: l)) with (v :: l). rewrite !count_ge_cons.
    destruct (t <=? v) eqn:E; [apply Z.leb_le in E; lia|].
    destruct (t <=? x); lia.
  - change (<[S j := v]> (x :: l)) with (x :: <[j := v]> l).
    rewrite !count_ge_cons. specialize (IH j v Hv). lia.
Qed.

Lemma count_ge_insert_row t (b : Board) : forall i row',
  (forall row, b !! i = Some row -> (count_ge t row' <= count_ge t row)%nat) ->
  (count_ge t (concat (<[i := row']> b)) <= count_ge t (concat b))%nat.
Proof.
  induction b as [|r b IH]; intros [|i] row' H; try (simpl; lia).
  - change (<[0%nat := row']> (r :: b)) with (row' :: b). cbn [concat].
    rewrite !count_ge_app. specialize (H r eq_refl). lia.
  - change (<[S i := row']> (r :: b)) with (r :: <[i := row']> b).
    cbn [concat]. rewrite !count_ge_app. specialize (IH i row' H). lia.
Qed.

Lemma set_cell_count_ge t b i j v :
  v < t -> (count_ge t (concat (set_cell b i j v)) <= count_ge t (concat b))%nat.
Proof.
  intros Hv. unfold set_cell. apply count_ge_insert_row. intros row Hrow.
  rewrite (list_lookup_total_correct _ _ _ Hrow).
  apply count_ge_insert, Hv.
Qed.

Lemma pow2_2 : pow2_or_zero 2.
Proof. right. exists 1. split; [lia|reflexivity]. Qed.

Lemma pow2_4 : pow2_or_zero 4.
Proof. right. exists 2. split; [lia|reflexivity]. Qed.

(** Spawning keeps the cells zero or powers of two, on any board. *)
Lemma add_new_tile_pow2 d b b' :
  cells_pow2 b -> add_new_tile d b = Ok b' -> cells_pow2 b'.
Proof.
  intros Hp H. destruct (empty_cells b) eqn:E.
  - rewrite add_new_tile_full in H by assumption. injection H as <-. exact Hp.
  - destruct (add_new_tile_spawns d b) as (i & j & v & _ & _ & _ & Hv & H');
      [congruence|].
    rewrite H' in H. injection H as <-. apply set_cell_Forall; [exact Hp|].
    destruct Hv as [-> | ->]; [apply pow2_2|apply pow2_4].
Qed.

Lemma add_new_tile_Inv d b b' : Inv b -> add_new_tile d b = Ok b' -> Inv b'.
Proof.
  intros (Hwf & Hp & Hc) H.
  split; [eapply add_new_tile_wf; eassumption|].
  split; [eapply add_new_tile_pow2; eassumption|].
  destruct (empty_cells b) eqn:E.
  - rewrite add_new_tile_full in H by assumption. injection H as <-. exact Hc.
  - destruct (add_new_tile_spawns d b) as (i & j & v & _ & _ & _ & Hv & H');
      [congruence|].
    rewrite H' in H. injection H as <-. intros k Hk.
    pose proof (thr_8 k (proj1 Hk)).
    pose proof (set_cell_count_ge (thr k) b i j v ltac:(destruct Hv; lia)).
    specialize (Hc k Hk). lia.
Qed.

Lemma zeros_Inv : Inv zeros.
Proof.
  split; [apply zeros_wf|]. split; [repeat constructor; left; reflexivity|].
  intros k Hk. pose proof (thr_pos k).
  change (concat zeros) with (repeat 0 16). rewrite count_ge_zeros by lia.
  lia.
Qed.

Lemma reset_Inv g0 d1 d2 g : reset g0 d1 d2 = Ok g -> Inv (board g).
Proof.
  unfold reset. intros H.
  destruct (add_new_tile d1 zeros) as [b1|e] eqn:E1; [|discriminate].
  cbn [mbind result_bind] in H.
  destruct (add_new_tile d2 b1) as [b2|e] eqn:E2; [|discriminate].
  cbn [mbind result_bind] in H. injection H as <-. cbn [board].
  eapply add_new_tile_Inv; [|exact E2].
  eapply add_new_tile_Inv; [|exact E1]. apply zeros_Inv.
Qed.

Lemma move_Inv direction d g moved g' :
  Inv (board g) -> move direction d g = Ok (moved, g') -> Inv (board g').
Proof.
  intros HI. pose proof (slide_phase_Inv direction _ (score g) HI) as HI'.
  unfold move.
  destruct (slide_phase direction (board g) (score g)) as [b s].
  cbn [fst] in HI'.
  destruct (negb (array_equal (board g) b)).
  - destruct (add_new_tile d b) as [b'|e] eqn:E; cbn; [|discriminate].
    intros H. injection H as _ <-. cbn [board].
    eapply add_new_tile_Inv; eassumption.
  - intros H. injection H as _ <-. exact HI'.
Qed.

Lemma reachable_Inv g : reachable g -> Inv (board g).
Proof.
  induction 1 as [g0 d1 d2 g H|g direction d moved g' _ IH H].
  - eapply reset_Inv, H.
  - eapply move_Inv; eassumption.
Qed.

(** C9. In every state reachable from [reset] by moves, every cell is 0 or
    a power of two 2, 4, 8, ...; [reset] gives such a board, spawning keeps
    the property on any board, and the slide/merge keeps it from every
    reachable state (and from any board of powers of two below 2^62). *)
Theorem reachable_cells_pow2 :
  (forall g, reachable g -> cells_pow2 (board g))
  /\ (forall g0 d1 d2 g, reset g0 d1 d2 = Ok g -> cells_pow2 (board g))
  /\ (forall d b b', cells_pow2 b -> add_new_tile d b = Ok b' -> cells_pow2 b')
  /\ (forall g direction, reachable g ->
        cells_pow2 (slide_phase direction (board g) (score g)).1)
  /\ (forall b direction s, wf b -> cells_pow2 b ->
        Forall (Forall (fun v => v < 2 ^ (INT_BITS - 2))) b ->
        cells_pow2 (slide_phase direction b s).1).
Proof.
  split; [intros g Hg; apply (reachable_Inv g Hg)|].
  split; [intros g0 d1 d2 g H; apply (reset_Inv _ _ _ _ H)|].
  split; [apply add_new_tile_pow2|].
  split; [|intros b direction s; apply slide_phase_pow2].
  intros g direction Hg.
  apply (slide_phase_Inv direction _ (score g) (reachable_Inv g Hg)).
Qed.

Lemma reachable_cells_pow2_witness :
  let g0 := mkGame zeros 0 false in
  let g1 := mkGame [[2; 0; 0; 0]; [2; 0; 0; 0]; [0; 0; 0; 0]; [0; 0; 0; 0]] 0 false in
  let g2 := mkGame [[4; 0; 0; 0]; [0; 0; 0; 0]; [4; 0; 0; 0]; [0; 0; 0; 0]] 4 false in
  reset g0 (mkDraw 0 true) (mkDraw 3 true) = Ok g1
  /\ move 0 (mkDraw 7 false) g1 = Ok (true, g2)
  /\ reachable g2 /\ cells_pow2 (board g2).
Proof.
  intros g0 g1 g2.
  assert (H1 : reset g0 (mkDraw 0 true) (mkDraw 3 true) = Ok g1) by reflexivity.
  assert (H2 : move 0 (mkDraw 7 false) g1 = Ok (true, g2)) by reflexivity.
  assert (Hr : reachable g2).
  { eapply reachable_move; [eapply reachable_reset; exact H1|exact H2]. }
  split; [exact H1|]. split; [exact H2|]. split; [exact Hr|].
  apply (proj1 reachable_cells_pow2 _ Hr).
Defined.

(** ** The score of a reachable state *)

Lemma worth_double a : 0 < a -> worth (2 * a) = 2 * worth a + 2 * a.
Proof. intros Ha. unfold worth. rewrite Z.log2_double by lia. ring. Qed.

Lemma worth_0 : worth 0 = 0.
Proof. reflexivity. Qed.

Lemma potential_cons v l : potential (v :: l) = worth v + potential l.
Proof. reflexivity. Qed.

Lemma potential_app l1 l2 : potential (l1 ++ l2) = potential l1 + potential l2.
Proof. unfold potential. rewrite map_app. apply sumZ_app. Qed.

Lemma potential_zeros n : potential (repeat 0 n) = 0.
Proof.
  induction n as [|n IH]; [reflexivity|].
  cbn [repeat]. rewrite potential_cons, IH, worth_0. reflexivity.
Qed.

Lemma potential_non_zeros l : potential (non_zeros l) = potential l.
Proof.
  induction l as [|v l IH]; [reflexivity|]. rewrite non_zeros_cons.
  destruct (v =? 0) eqn:E.
  - apply Z.eqb_eq in E. subst v. rewrite potential_cons, worth_0, IH. lia.
  - rewrite !potential_cons, IH. reflexivity.
Qed.

Lemma pair_up_potential l : forall k,
  Forall (fun v => 0 < v < 2 ^ (INT_BITS - 2)) l ->
  potential (pair_up l)
  = potential l + 2 * sumZ (map snd (pair_trace k l)).
Proof.
  induction l as [| |a b r IHr IHbr] using pair_ind; intros k Hl.
  - reflexivity.
  - simpl. lia.
  - inversion Hl as [|? ? Ha Hl1]; subst.
    inversion Hl1 as [|? ? Hb Hl2]; subst.
    rewrite pair_up_cons2, pair_trace_cons2. destruct (a =? b) eqn:E.
    + apply Z.eqb_eq in E. subst b.
      assert (Hm : merged a = 2 * a).
      { unfold merged. rewrite wrap_small; unfold INT_BITS in *; simpl in *; lia. }
      rewrite Hm, !potential_cons, worth_0, worth_double, (IHr (S (S k))) by
        (assumption || lia).
      cbn [map snd]. rewrite sumZ_cons. lia.
    + rewrite !potential_cons, (IHbr (S k)) by assumption.
      rewrite !potential_cons. lia.
Qed.

Lemma slid_potential row :
  Forall (fun v => 0 <= v < 2 ^ (INT_BITS - 2)) row ->
  potential (slid row) = potential row + 2 * sumZ (row_merges row).
Proof.
  intros Hrow. unfold slid.
  rewrite potential_app, potential_zeros, potential_non_zeros, row_merges_closed.
  rewrite (pair_up_potential _ 0%nat), potential_non_zeros; [lia|].
  clear -Hrow. induction Hrow as [|v l Hv _ IH]; [constructor|].
  rewrite non_zeros_cons. destruct (v =? 0) eqn:E; [exact IH|].
  apply Z.eqb_neq in E. constructor; [lia|exact IH].
Qed.

Lemma rows_potential X :
  Forall (Forall (fun v => 0 <= v < 2 ^ (INT_BITS - 2))) X ->
  potential (concat (map slid X))
  = potential (concat X) + 2 * sumZ (flat_map row_merges X).
Proof.
  induction 1 as [|row X Hrow _ IH]; [reflexivity|].
  cbn [map concat flat_map].
  rewrite !potential_app, sumZ_app, IH, slid_potential by assumption. lia.
Qed.

Lemma view_in_potential direction b :
  wf b -> potential (concat (view_in direction b)) = potential (concat b).
Proof.
  intros Hwf. board_cells b. unfold view_in.
  destruct (direction =? 0); [|destruct (direction =? 1);
                                [|destruct (direction =? 2)]];
    unfold transpose, fliplr, tabulate, cell, SIZE;
    cbn [seq map concat app lookup_total list_lookup_total Nat.sub];
    rewrite !potential_cons; lia.
Qed.

Lemma view_out_potential direction b :
  wf b -> potential (concat (view_out direction b)) = potential (concat b).
Proof.
  intros Hwf. board_cells b. unfold view_out.
  destruct (direction =? 0); [|destruct (direction =? 1);
                                [|destruct (direction =? 2)]];
    unfold transpose, fliplr, tabulate, cell, SIZE;
    cbn [seq map concat app lookup_total list_lookup_total Nat.sub];
    rewrite !potential_cons; lia.
Qed.

Lemma worth_nonneg v : pow2_or_zero v -> 0 <= worth v.
Proof.
  intros [->|(e & He & ->)]; [rewrite worth_0; lia|].
  unfold worth. rewrite Z.log2_pow2 by lia.
  assert (0 < 2 ^ e) by (apply Z.pow_pos_nonneg; lia). nia.
Qed.

Lemma worth_bound v : 0 <= v < 2 ^ 18 -> worth v <= 2 ^ 23.
Proof.
  intros Hv. destruct (Z.eq_dec v 0) as [->|Hne]; [rewrite worth_0; lia|].
  unfold worth.
  assert (HL : Z.log2 v < 18) by (apply Z.log2_lt_pow2; lia).
  pose proof (Z.log2_nonneg v). nia.
Qed.

Lemma potential_nonneg l : Forall pow2_or_zero l -> 0 <= potential l.
Proof.
  induction 1 as [|v l Hv _ IH]; [reflexivity|].
  rewrite potential_cons. pose proof (worth_nonneg v Hv). lia.
Qed.

Lemma potential_bound l :
  Forall (fun v => 0 <= v < 2 ^ 18) l ->
  potential l <= Z.of_nat (length l) * 2 ^ 23
  /\ sumZ l <= Z.of_nat (length l) * 2 ^ 18.
Proof.
  induction 1 as [|v l Hv _ [IH1 IH2]]; [split; reflexivity|].
  rewrite potential_cons. pose proof (worth_bound v Hv).
  cbn [length]. rewrite sumZ_cons, Nat2Z.inj_succ. lia.
Qed.

Lemma Forall_rows_concat (P : Z -> Prop) (b : Board) :
  Forall (Forall P) b -> Forall P (concat b).
Proof.
  induction 1 as [|row b Hrow _ IH]; [constructor|].
  cbn [concat]. apply Forall_app. split; assumption.
Qed.

Lemma Inv_cells b : Inv b -> Forall (fun v => 0 <= v < 2 ^ 18) (concat b).
Proof.
  intros (Hwf & Hp & Hc). pose proof (crowd_bound b Hc) as Hb.
  pose proof (Forall_rows_concat _ _ Hp) as Hp'.
  rewrite Forall_forall in Hb, Hp'. apply Forall_forall. intros v Hv.
  split; [apply pow2_nonneg, Hp', Hv|apply Hb, Hv].
Qed.

Lemma SInv_in_range g : SInv g -> wf (board g) /\ in_range g.
Proof.
  intros [HI [Hs0 Hs]]. pose proof (Inv_cells _ HI) as Hc.
  destruct HI as (Hwf & Hp & _). split; [exact Hwf|].
  destruct (potential_bound _ Hc) as [Hpot Hsum].
  rewrite wf_concat_length in Hpot, Hsum by assumption.
  split; [|split; [exact Hs0|]].
  - eapply List.Forall_impl; [|exact Hp]. intros row Hrow.
    eapply List.Forall_impl; [|exact Hrow]. apply pow2_nonneg.
  - unfold INT_BITS, SIZE in *. simpl in *. lia.
Qed.

Lemma slide_phase_potential direction b s :
  wf b -> Forall (Forall (fun v => 0 <= v < 2 ^ (INT_BITS - 2))) b ->
  potential (concat (slide_phase direction b s).1)
  = potential (concat b) + 2 * sumZ (move_merges direction b).
Proof.
  intros Hwf Hb. rewrite slide_phase_closed by assumption. cbn [fst].
  rewrite view_out_potential by apply map_slid_wf, view_in_wf, Hwf.
  rewrite rows_potential by (apply view_in_Forall; assumption).
  rewrite view_in_potential by assumption. reflexivity.
Qed.

Lemma potential_insert l : forall j v,
  l !! j = Some 0 -> potential (<[j := v]> l) = potential l + worth v.
Proof.
  induction l as [|x l IH]; intros [|j] v Hj; try discriminate.
  - injection Hj as ->. change (<[0%nat := v]> (0 :: l)) with (v :: l).
    rewrite !potential_cons, worth_0. lia.
  - change (<[S j := v]> (x :: l)) with (x :: <[j := v]> l).
    rewrite !potential_cons, (IH j v Hj). lia.
Qed.

Lemma potential_insert_row (b : Board) : forall i row row',
  b !! i = Some row ->
  potential (concat (<[i := row']> b))
  = potential (concat b) - potential row + potential row'.
Proof.
  induction b as [|r b IH]; intros [|i] row row' Hi; try discriminate.
  - injection Hi as ->. change (<[0%nat := row']> (row :: b)) with (row' :: b).
    cbn [concat]. rewrite !potential_app. lia.
  - change (<[S i := row']> (r :: b)) with (r :: <[i := row']> b).
    cbn [concat]. rewrite !potential_app, (IH i row row' Hi). lia.
Qed.

Lemma set_cell_potential b i j v :
  wf b -> (i < SIZE)%nat -> (j < SIZE)%nat -> cell b i j = 0 ->
  potential (concat (set_cell b i j v)) = potential (concat b) + worth v.
Proof.
  intros Hwf Hi Hj Hc.
  destruct (cell_lookup b i j 0 Hwf Hi Hj Hc) as (row & Hrow & Hcell).
  unfold set_cell. rewrite (potential_insert_row b i row _ Hrow).
  rewrite (list_lookup_total_correct _ _ _ Hrow).
  rewrite (potential_insert row j v Hcell). lia.
Qed.

Lemma add_new_tile_potential d b b' :
  wf b -> add_new_tile d b = Ok b' ->
  potential (concat b) <= potential (concat b').
Proof.
  intros Hwf H. destruct (empty_cells b) eqn:E.
  - rewrite add_new_tile_full in H by assumption. injection H as <-. lia.
  - destruct (add_new_tile_spawns d b) as (i & j & v & Hi & Hj & Hz & Hv & H');
      [congruence|].
    rewrite H' in H. injection H as <-.
    rewrite set_cell_potential by assumption.
    destruct Hv as [-> | ->];
      [change (worth 2) with 0|change (worth 4) with 4]; lia.
Qed.

Lemma reset_SInv g0 d1 d2 g : reset g0 d1 d2 = Ok g -> SInv g.
Proof.
  intros H. pose proof (reset_Inv _ _ _ _ H) as HI. split; [exact HI|].
  assert (Hs : score g = 0).
  { unfold reset in H.
    destruct (add_new_tile d1 zeros) as [b1|e]; [|discriminate].
    cbn [mbind result_bind] in H.
    destruct (add_new_tile d2 b1) as [b2|e]; [|discriminate].
    cbn [mbind result_bind] in H. injection H as <-. reflexivity. }
  rewrite Hs. split; [lia|].
  apply potential_nonneg, Forall_rows_concat. apply HI.
Qed.

Lemma move_SInv direction d g moved g' :
  SInv g -> move direction d g = Ok (moved, g') -> SInv g'.
Proof.
  intros HS Hm. pose proof (SInv_in_range g HS) as [Hwf Hrange].
  destruct HS as [HI [Hs0 Hs]].
  split; [eapply move_Inv; eassumption|].
  rewrite (move_score _ _ _ _ _ Hm).
  destruct (slide_phase_score direction g Hwf Hrange) as [Hpos ->].
  assert (H0 : 0 <= sumZ (move_merges direction (board g))).
  { clear - Hpos. induction Hpos; simpl; lia. }
  assert (Hb : Forall (Forall (fun v => 0 <= v < 2 ^ (INT_BITS - 2))) (board g)).
  { apply Forall_concat_rows.
    eapply List.Forall_impl; [|apply (Inv_cells _ HI)].
    unfold INT_BITS. simpl. intros; lia. }
  pose proof (slide_phase_potential direction _ (score g) Hwf Hb) as Hpot.
  pose proof (slide_phase_wf direction _ (score g) Hwf) as Hwf'.
  split; [lia|].
  revert Hm. unfold move.
  destruct (slide_phase direction (board g) (score g)) as [b s].
  cbn [fst snd] in *.
  destruct (negb (array_equal (board g) b)).
  - destruct (add_new_tile d b) as [b'|e] eqn:E; cbn; [|discriminate].
    intros H. injection H as _ <-. cbn [board].
    pose proof (add_new_tile_potential d b b' Hwf' E). lia.
  - intros H. injection H as _ <-. cbn [board]. lia.
Qed.

Lemma reachable_SInv g : reachable g -> SInv g.
Proof.
  induction 1 as [g0 d1 d2 g H|g direction d moved g' _ IH H].
  - eapply reset_SInv, H.
  - eapply move_SInv; eassumption.
Qed.

(** Every reachable state has the shape and the range the theorems on
    [move] ask for. *)
Lemma reachable_in_range g : reachable g -> wf (board g) /\ in_range g.
Proof. intros H. apply SInv_in_range, reachable_SInv, H. Qed.

(** C5. A move adds to the score, for each merge it makes, the doubled
    value [2 * v] of the two tiles [v] it joins, and nothing else; so the
    score does not decrease.  This holds from every state whose values are
    in the 64-bit range, and every reachable state is one. *)
Theorem score_increase :
  (forall direction d g moved g',
     wf (board g) -> in_range g ->
     move direction d g = Ok (moved, g') ->
     let merges := move_merges direction (board g) in
     Forall (fun v => 0 < v) merges
     /\ score g' = score g + sumZ (map (fun v => 2 * v) merges)
     /\ score g <= score g')
  /\ (forall g, reachable g -> wf (board g) /\ in_range g).
Proof.
  split; [|apply reachable_in_range].
  intros direction d g moved g' Hwf Hrange Hm merges.
  rewrite (move_score _ _ _ _ _ Hm).
  destruct (slide_phase_score direction g Hwf Hrange) as [Hpos ->].
  fold merges in Hpos |- *.
  assert (Hdouble : sumZ (map (fun v => 2 * v) merges) = 2 * sumZ merges).
  { clear. induction merges as [|v l IH]; simpl; lia. }
  assert (H0 : 0 <= sumZ merges).
  { clear - Hpos. induction Hpos; simpl; lia. }
  repeat split; [exact Hpos|lia|lia].
Qed.

Lemma score_increase_witness :
  let g := mkGame [[2; 2; 4; 4]; [0; 0; 0; 0]; [8; 0; 8; 0]; [0; 0; 0; 2]] 100 false in
  exists g', move 3 (mkDraw 2 false) g = Ok (true, g')
             /\ move_merges 3 (board g) = [2; 4; 8]
             /\ score g' = 100 + sumZ (map (fun v => 2 * v) [2; 4; 8]).
Proof.
  intros g. eexists. split; [reflexivity|]. split; [reflexivity|].
  refine (proj1 (proj2 (proj1 score_increase 3 (mkDraw 2 false) g true _ _ _ eq_refl))).
  - repeat constructor.
  - unfold in_range. simpl. repeat split; try lia. repeat constructor; lia.
Defined.

(** ** Up, right and left against the direct slide *)

Lemma direct_scan_closed l : forall k,
  Forall (fun v => 0 < v) l -> sumZ l < 2 ^ (INT_BITS - 1) ->
  direct_scan l = (pair_up l, 2 * sumZ (map snd (pair_trace k l))).
Proof.
  induction l as [| |a b r IHr IHbr] using pair_ind; intros k Hl Hs.
  - reflexivity.
  - reflexivity.
  - inversion Hl as [|? ? Ha Hl1]; subst.
    inversion Hl1 as [|? ? Hb Hl2]; subst.
    assert (0 <= sumZ r) by (clear - Hl2; induction Hl2; simpl; lia).
    rewrite !sumZ_cons in Hs.
    change (direct_scan (a :: b :: r)) with
      (if a =? b
       then (2 * a :: 0 :: (direct_scan r).1, 2 * a + (direct_scan r).2)
       else (a :: (direct_scan (b :: r)).1, (direct_scan (b :: r)).2)).
    rewrite pair_up_cons2, pair_trace_cons2. destruct (a =? b) eqn:E.
    + apply Z.eqb_eq in E. subst b.
      rewrite (IHr (S (S k))) by (assumption || lia). cbn [fst snd map].
      rewrite sumZ_cons. unfold merged.
      rewrite wrap_small by (unfold INT_BITS in *; simpl in *; lia).
      f_equal; [f_equal|]; lia.
    + rewrite (IHbr (S k)) by (assumption || rewrite sumZ_cons; lia).
      reflexivity.
Qed.

Lemma direct_line_closed row :
  length row = SIZE -> Forall (fun v => 0 <= v) row ->
  sumZ row < 2 ^ (INT_BITS - 1) ->
  direct_line row = (slid row, 2 * sumZ (row_merges row)).
Proof.
  intros Hl Hrow Hs. unfold direct_line.
  rewrite (direct_scan_closed _ 0%nat) by
    (try apply non_zeros_positive; rewrite ?sumZ_non_zeros; assumption).
  rewrite row_merges_closed, Hl. reflexivity.
Qed.

Lemma lines_of_view d b :
  wf b -> d <> Down -> lines_of d b = view_in (dir_code d) b.
Proof.
  intros Hwf Hd. board_cells b. destruct d; try congruence; reflexivity.
Qed.

Lemma row_sum_bound (X : Board) row :
  Forall (Forall (fun v => 0 <= v)) X -> In row X ->
  Forall (fun v => 0 <= v) row /\ sumZ row <= sumZ (concat X).
Proof.
  induction 1 as [|r X Hr HX IH]; [intros []|].
  assert (Hnn : forall l, Forall (fun v => 0 <= v) l -> 0 <= sumZ l).
  { clear. induction 1; simpl; lia. }
  cbn [concat]. rewrite sumZ_app.
  pose proof (Hnn r Hr). pose proof (Hnn _ (Forall_rows_concat _ _ HX)).
  intros [->|Hin]; [split; [assumption|lia]|].
  destruct (IH Hin). split; [assumption|lia].
Qed.

(** For up, right and left, [move]'s slide/merge is the direct slide of
    that direction: the same board, and the score raised by its gain. *)
Lemma move_matches_direct d g :
  wf (board g) -> in_range g -> d <> Down ->
  slide_phase (dir_code d) (board g) (score g)
  = ((direct_slide d (board g)).1, score g + (direct_slide d (board g)).2).
Proof.
  intros Hwf Hrange Hd.
  destruct (slide_phase_score (dir_code d) g Hwf Hrange) as [_ Hscore].
  destruct Hrange as (Hcells & Hs0 & Hsum).
  rewrite (surjective_pairing (slide_phase _ _ _)), Hscore.
  rewrite slide_phase_closed by assumption. cbn [fst].
  unfold direct_slide, move_merges. rewrite (lines_of_view d _ Hwf Hd).
  pose proof (view_in_wf (dir_code d) _ Hwf) as HX.
  pose proof (view_in_Forall _ (dir_code d) _ Hwf Hcells) as HXc.
  pose proof (view_in_sum (dir_code d) _ Hwf) as HXs.
  revert HX HXc HXs. generalize (view_in (dir_code d) (board g)).
  intros X HX HXc HXs.
  assert (Hlines : map direct_line X
                   = map (fun row => (slid row, 2 * sumZ (row_merges row))) X).
  { apply map_ext_in. intros row Hrow.
    destruct (row_sum_bound X row HXc Hrow) as [Hnn Hle].
    apply direct_line_closed; [|assumption|lia].
    destruct HX as [_ HX]. rewrite List.Forall_forall in HX. apply HX, Hrow. }
  rewrite Hlines. clear Hlines.
  destruct (wf_rows X HX) as (r0 & r1 & r2 & r3 & -> & H0 & H1 & H2 & H3).
  apply pair_equal_spec. split.
  - cbn [map].
    destruct (length4 (slid r0) (slid_length r0 ltac:(lia))) as (? & ? & ? & ? & ->).
    destruct (length4 (slid r1) (slid_length r1 ltac:(lia))) as (? & ? & ? & ? & ->).
    destruct (length4 (slid r2) (slid_length r2 ltac:(lia))) as (? & ? & ? & ? & ->).
    destruct (length4 (slid r3) (slid_length r3 ltac:(lia))) as (? & ? & ? & ? & ->).
    destruct d; try congruence; reflexivity.
  - cbn [map flat_map fst snd]. rewrite !sumZ_app, !sumZ_cons.
    change (sumZ []) with 0. lia.
Qed.

(** ** The [game_over] flag *)

Lemma reset_shape g0 d1 d2 g :
  reset g0 d1 d2 = Ok g ->
  wf (board g) /\ count_nonzero (board g) = 2%nat
  /\ score g = 0 /\ game_over g = false.
Proof.
  unfold reset.
  destruct (add_new_tile_spawns d1 zeros)
    as (i1 & j1 & v1 & Hi1 & Hj1 & Hz1 & Hv1 & ->); [discriminate|].
  cbn [mbind result_bind].
  set (b1 := set_cell zeros i1 j1 v1).
  assert (Hwf1 : wf b1) by apply set_cell_wf, zeros_wf.
  assert (Hc1 : count_nonzero b1 = 1%nat).
  { unfold b1. rewrite set_cell_count; auto using zeros_wf. destruct Hv1; lia. }
  assert (He1 : empty_cells b1 <> []).
  { intros He. rewrite (full_board_count b1 Hwf1 He) in Hc1. discriminate. }
  destruct (add_new_tile_spawns d2 b1 He1)
    as (i2 & j2 & v2 & Hi2 & Hj2 & Hz2 & Hv2 & ->).
  intros H. injection H as <-. cbn [board score game_over].
  split; [apply set_cell_wf, Hwf1|].
  split; [|auto].
  rewrite set_cell_count; auto. destruct Hv2; lia.
Qed.

Lemma not_full_not_over b :
  wf b -> (count_nonzero b < SIZE * SIZE)%nat -> is_game_over b = false.
Proof.
  intros Hwf Hc. apply has_empty_not_over; [|exact Hwf].
  intros He. rewrite (full_board_count b Hwf He) in Hc. lia.
Qed.

Lemma reachable_flag g :
  reachable g -> game_over g = is_game_over (board g).
Proof.
  induction 1 as [g0 d1 d2 g H|g direction d moved g' Hr IH H].
  - destruct (reset_shape _ _ _ _ H) as (Hwf & Hc & _ & ->).
    symmetry. apply not_full_not_over; [exact Hwf|]. rewrite Hc. unfold SIZE. lia.
  - pose proof (reachable_Inv g Hr) as (Hwf & _).
    destruct (is_game_over (board g)) eqn:Hover.
    + rewrite (move_fixed direction d g Hwf
                 (terminal_slide_fixed direction _ (score g) Hwf Hover)) in H.
      injection H as _ <-. congruence.
    + revert H. unfold move.
      destruct (slide_phase direction (board g) (score g)) as [b s].
      destruct (array_equal (board g) b) eqn:Heq; cbn [negb].
      * intros H. injection H as _ <-. cbn [board game_over].
        apply bool_decide_eq_true in Heq. congruence.
      * destruct (add_new_tile d b) as [b'|e]; cbn; [|discriminate].
        intros H. injection H as _ <-. cbn [board game_over].
        rewrite IH. destruct (is_game_over b'); reflexivity.
Qed.

(** In every reachable state the flag [game_over] is what
    [is_game_over] says of the board. *)
Theorem game_over_flag_in_sync g :
  reachable g -> game_over g = is_game_over (board g).
Proof. apply reachable_flag. Qed.

Lemma game_over_flag_in_sync_witness :
  let g := mkGame [[4; 0; 0; 0]; [0; 0; 0; 0]; [4; 0; 0; 0]; [0; 0; 0; 0]] 4 false in
  reachable g /\ game_over g = is_game_over (board g).
Proof.
  intros g.
  assert (Hr : reachable g).
  { eapply (reachable_move
              (mkGame [[2; 0; 0; 0]; [2; 0; 0; 0]; [0; 0; 0; 0]; [0; 0; 0; 0]] 0 false)
              0 (mkDraw 7 false) true);
      [eapply (reachable_reset (mkGame zeros 0 false) (mkDraw 0 true) (mkDraw 3 true))|];
      reflexivity. }
  split; [exact Hr|exact (game_over_flag_in_sync g Hr)].
Defined.

(** ** Bounds on the tiles and the score *)

Lemma pow2_below v k :
  pow2_or_zero v -> 0 <= k -> v < 2 ^ (k + 1) -> 0 <= v <= 2 ^ k.
Proof.
  intros [->|(e & He & ->)] Hk Hv.
  - split; [lia|]. apply Z.pow_nonneg. lia.
  - split; [apply Z.pow_nonneg; lia|].
    apply Z.pow_lt_mono_r_iff in Hv; [|lia|lia].
    apply Z.pow_le_mono_r; lia.
Qed.

(** No tile of a reachable state is above 2^17 = 131072, and the score is
    at most 2^27: the 64-bit arithmetic of [move] never wraps in a game. *)
Theorem reachable_bounds g :
  reachable g ->
  Forall (Forall (fun v => 0 <= v <= 131072)) (board g)
  /\ 0 <= score g <= 134217728.
Proof.
  intros Hr. destruct (reachable_SInv g Hr) as [HI Hs].
  pose proof (Inv_cells _ HI) as Hc.
  destruct (potential_bound _ Hc) as [Hpot _].
  destruct HI as (Hwf & Hp & Hcrowd).
  rewrite wf_concat_length in Hpot by assumption.
  split; [|unfold SIZE in Hpot; simpl in Hpot; lia].
  pose proof (Forall_concat_rows _ _ (crowd_bound _ Hcrowd)) as Hb.
  apply Forall_forall. intros row Hrow.
  unfold cells_pow2 in Hp. rewrite Forall_forall in Hp, Hb.
  specialize (Hp row Hrow). specialize (Hb row Hrow).
  rewrite Forall_forall in Hp, Hb. apply Forall_forall. intros v Hv.
  change 131072 with (2 ^ 17).
  apply pow2_below; [apply Hp, Hv|lia|apply Hb, Hv].
Qed.

Lemma reachable_bounds_witness :
  let g := mkGame [[4; 0; 0; 0]; [0; 0; 0; 0]; [4; 0; 0; 0]; [0; 0; 0; 0]] 4 false in
  reachable g /\ 0 <= score g <= 134217728.
Proof.
  intros g.
  assert (Hr : reachable g).
  { eapply (reachable_move
              (mkGame [[2; 0; 0; 0]; [2; 0; 0; 0]; [0; 0; 0; 0]; [0; 0; 0; 0]] 0 false)
              0 (mkDraw 7 false) true);
      [eapply (reachable_reset (mkGame zeros 0 false) (mkDraw 0 true) (mkDraw 3 true))|];
      reflexivity. }
  split; [exact Hr|exact (proj2 (reachable_bounds g Hr))].
Defined.

(** ** The sum of the tiles *)

Lemma pair_up_sum l :
  Forall (fun v => 0 < v < 2 ^ (INT_BITS - 2)) l -> sumZ (pair_up l) = sumZ l.
Proof.
  induction l as [| |a b r IHr IHbr] using pair_ind; intros Hl; try reflexivity.
  inversion Hl as [|? ? Ha Hl1]; subst. inversion Hl1 as [|? ? Hb Hl2]; subst.
  rewrite pair_up_cons2. destruct (a =? b) eqn:E.
  - apply Z.eqb_eq in E. subst b.
    assert (Hm : merged a = 2 * a).
    { unfold merged. rewrite wrap_small; unfold INT_BITS in *; simpl in *; lia. }
    rewrite Hm, !sumZ_cons, (IHr Hl2). lia.
  - rewrite !sumZ_cons, (IHbr Hl1), sumZ_cons. reflexivity.
Qed.

Lemma sumZ_zeros n : sumZ (repeat 0 n) = 0.
Proof. induction n as [|n IH]; [reflexivity|]. cbn [repeat]. rewrite sumZ_cons. lia. Qed.

Lemma non_zeros_strict l :
  Forall (fun v => 0 <= v < 2 ^ (INT_BITS - 2)) l ->
  Forall (fun v => 0 < v < 2 ^ (INT_BITS - 2)) (non_zeros l).
Proof.
  induction 1 as [|v l Hv _ IH]; [constructor|].
  rewrite non_zeros_cons. destruct (v =? 0) eqn:E; [exact IH|].
  apply Z.eqb_neq in E. constructor; [lia|exact IH].
Qed.

Lemma slid_sum row :
  Forall (fun v => 0 <= v < 2 ^ (INT_BITS - 2)) row -> sumZ (slid row) = sumZ row.
Proof.
  intros Hrow. unfold slid.
  rewrite sumZ_app, sumZ_zeros, sumZ_non_zeros, pair_up_sum, sumZ_non_zeros
    by (apply non_zeros_strict, Hrow). lia.
Qed.

Lemma rows_sum X :
  Forall (Forall (fun v => 0 <= v < 2 ^ (INT_BITS - 2))) X ->
  sumZ (concat (map slid X)) = sumZ (concat X).
Proof.
  induction 1 as [|row X Hrow _ IH]; [reflexivity|].
  cbn [map concat]. rewrite !sumZ_app, IH, slid_sum by assumption. reflexivity.
Qed.

Lemma view_out_sum direction b :
  wf b -> sumZ (concat (view_out direction b)) = sumZ (concat b).
Proof.
  intros Hwf. board_cells b. unfold view_out.
  destruct (direction =? 0); [|destruct (direction =? 1);
                                [|destruct (direction =? 2)]];
    unfold transpose, fliplr, tabulate, cell, SIZE; simpl; lia.
Qed.

Lemma slide_phase_sum direction b s :
  wf b -> Forall (Forall (fun v => 0 <= v < 2 ^ (INT_BITS - 2))) b ->
  sumZ (concat (slide_phase direction b s).1) = sumZ (concat b).
Proof.
  intros Hwf Hb. rewrite slide_phase_closed by assumption. cbn [fst].
  rewrite view_out_sum by apply map_slid_wf, view_in_wf, Hwf.
  rewrite rows_sum by (apply view_in_Forall; assumption).
  apply view_in_sum, Hwf.
Qed.

Lemma sumZ_insert l : forall j v,
  l !! j = Some 0 -> sumZ (<[j := v]> l) = sumZ l + v.
Proof.
  induction l as [|x l IH]; intros [|j] v Hj; try discriminate.
  - injection Hj as ->. change (<[0%nat := v]> (0 :: l)) with (v :: l).
    rewrite !sumZ_cons. lia.
  - change (<[S j := v]> (x :: l)) with (x :: <[j := v]> l).
    rewrite !sumZ_cons, (IH j v Hj). lia.
Qed.

Lemma sumZ_insert_row (b : Board) : forall i row row',
  b !! i = Some row ->
  sumZ (concat (<[i := row']> b)) = sumZ (concat b) - sumZ row + sumZ row'.
Proof.
  induction b as [|r b IH]; intros [|i] row row' Hi; try discriminate.
  - injection Hi as ->. change (<[0%nat := row']> (row :: b)) with (row' :: b).
    cbn [concat]. rewrite !sumZ_app. lia.
  - change (<[S i := row']> (r :: b)) with (r :: <[i := row']> b).
    cbn [concat]. rewrite !sumZ_app, (IH i row row' Hi). lia.
Qed.

Lemma set_cell_sum b i j v :
  wf b -> (i < SIZE)%nat -> (j < SIZE)%nat -> cell b i j = 0 ->
  sumZ (concat (set_cell b i j v)) = sumZ (concat b) + v.
Proof.
  intros Hwf Hi Hj Hc.
  destruct (cell_lookup b i j 0 Hwf Hi Hj Hc) as (row & Hrow & Hcell).
  unfold set_cell. rewrite (sumZ_insert_row b i row _ Hrow).
  rewrite (list_lookup_total_correct _ _ _ Hrow).
  rewrite (sumZ_insert row j v Hcell). lia.
Qed.

Lemma Inv_range b :
  Inv b -> Forall (Forall (fun v => 0 <= v < 2 ^ (INT_BITS - 2))) b.
Proof.
  intros HI. apply Forall_concat_rows.
  eapply List.Forall_impl; [|apply (Inv_cells _ HI)].
  unfold INT_BITS. simpl. intros; lia.
Qed.

(** What a move does to the sum of the tiles, from a board in the
    invariant: nothing when it returns [False], plus the spawned 2 or 4
    when it returns [True]. *)
Lemma move_sum direction d g moved g' :
  Inv (board g) -> move direction d g = Ok (moved, g') ->
  (moved = false /\ board g' = board g)
  \/ (moved = true
      /\ (sumZ (concat (board g')) = sumZ (concat (board g)) + 2
          \/ sumZ (concat (board g')) = sumZ (concat (board g)) + 4)).
Proof.
  intros HI. pose proof HI as (Hwf & _).
  pose proof (slide_phase_sum direction _ (score g) Hwf (Inv_range _ HI)) as Hsum.
  pose proof (slide_phase_wf direction _ (score g) Hwf) as Hwf'.
  pose proof (moved_has_empty direction (board g) (score g) Hwf) as Hm.
  unfold move.
  destruct (slide_phase direction (board g) (score g)) as [b s].
  cbn [fst] in *.
  destruct (array_equal (board g) b) eqn:Heq; cbn [negb].
  - intros H. injection H as <- <-. left. split; [reflexivity|].
    apply bool_decide_eq_true in Heq. cbn [board]. congruence.
  - apply array_equal_false in Heq.
    assert (He : empty_cells b <> []) by (apply Hm; congruence).
    destruct (add_new_tile_spawns d b He)
      as (i & j & v & Hi & Hj & Hz & Hv & ->).
    cbn. intros H. injection H as <- <-. right. split; [reflexivity|].
    cbn [board]. rewrite set_cell_sum, Hsum by assumption.
    destruct Hv as [-> | ->]; auto.
Qed.

(** The slide/merge keeps the sum of the tiles (a merge writes the sum of
    the two tiles it joins), so a move from a reachable state changes the
    sum by the spawned tile only: by 2 or 4 when it returns [True], by
    nothing when it returns [False]. *)
Theorem tile_sum_conserved direction d g moved g' :
  reachable g -> move direction d g = Ok (moved, g') ->
  sumZ (concat (slide_phase direction (board g) (score g)).1)
  = sumZ (concat (board g))
  /\ exists v, (v = 2 \/ v = 4)
       /\ sumZ (concat (board g'))
          = sumZ (concat (board g)) + (if moved then v else 0).
Proof.
  intros Hr Hm. pose proof (reachable_Inv g Hr) as HI.
  split.
  - apply slide_phase_sum; [apply HI|apply Inv_range, HI].
  - destruct (move_sum direction d g moved g' HI Hm)
      as [[-> Hb]|[-> [Hs|Hs]]].
    + exists 2. split; [auto|]. rewrite Hb. lia.
    + exists 2. split; [auto|]. lia.
    + exists 4. split; [auto|]. lia.
Qed.

Lemma tile_sum_conserved_witness :
  let g := mkGame [[2; 0; 0; 0]; [2; 0; 0; 0]; [0; 0; 0; 0]; [0; 0; 0; 0]] 0 false in
  let g' := mkGame [[4; 0; 0; 0]; [0; 0; 0; 0]; [4; 0; 0; 0]; [0; 0; 0; 0]] 4 false in
  move 0 (mkDraw 7 false) g = Ok (true, g')
  /\ sumZ (concat (slide_phase 0 (board g) (score g)).1) = sumZ (concat (board g)).
Proof.
  intros g g'.
  assert (Hr : reachable g).
  { eapply (reachable_reset (mkGame zeros 0 false) (mkDraw 0 true) (mkDraw 3 true)).
    reflexivity. }
  assert (Hm : move 0 (mkDraw 7 false) g = Ok (true, g')) by reflexivity.
  split; [exact Hm|].
  exact (proj1 (tile_sum_conserved 0 (mkDraw 7 false) g true g' Hr Hm)).
Defined.

(** From a reachable state, [move] returns [True] exactly when the board it
    leaves differs from the board it found. *)
Theorem move_reports_change direction d g moved g' :
  reachable g -> move direction d g = Ok (moved, g') ->
  (moved = true <-> board g' <> board g).
Proof.
  intros Hr Hm. pose proof (reachable_Inv g Hr) as HI.
  destruct (move_sum direction d g moved g' HI Hm) as [[-> Hb]|[-> Hs]].
  - split; [discriminate|]. intros H. contradiction.
  - split; [|reflexivity]. intros _ Heq. rewrite Heq in Hs. lia.
Qed.

Lemma move_reports_change_witness :
  let g := mkGame [[2; 0; 0; 0]; [2; 0; 0; 0]; [0; 0; 0; 0]; [0; 0; 0; 0]] 0 false in
  let g' := mkGame [[4; 0; 0; 0]; [0; 0; 0; 0]; [4; 0; 0; 0]; [0; 0; 0; 0]] 4 false in
  move 0 (mkDraw 7 false) g = Ok (true, g') /\ board g' <> board g.
Proof.
  intros g g'.
  assert (Hr : reachable g).
  { eapply (reachable_reset (mkGame zeros 0 false) (mkDraw 0 true) (mkDraw 3 true)).
    reflexivity. }
  assert (Hm : move 0 (mkDraw 7 false) g = Ok (true, g')) by reflexivity.
  split; [exact Hm|].
  exact (proj1 (move_reports_change 0 (mkDraw 7 false) g true g' Hr Hm) eq_refl).
Defined.

(** ** No gap after a slide *)

Lemma slid_packed row j :
  (S j < length (slid row))%nat -> slid row !!! j = 0 -> slid row !!! S j = 0.
Proof.
  unfold slid. set (nz := non_zeros (pair_up (non_zeros row))).
  set (k := (SIZE - length nz)%nat). rewrite length_app, repeat_length.
  intros Hlen H.
  destruct (decide (j < length nz)%nat) as [Hj|Hj].
  - exfalso. rewrite lookup_total_app_l in H by exact Hj.
    pose proof (non_zeros_nonzero (pair_up (non_zeros row))) as Hnz.
    fold nz in Hnz. rewrite Forall_forall in Hnz.
    apply (Hnz (nz !!! j)); [|exact H].
    apply list_elem_of_lookup. exists j.
    apply list_lookup_lookup_total_lt, Hj.
  - rewrite lookup_total_app_r by lia.
    assert (Hin : (S j - length nz < length (repeat 0%Z k))%nat)
      by (rewrite repeat_length; lia).
    apply list_lookup_lookup_total_lt in Hin.
    apply list_elem_of_lookup_2, list_elem_of_In, repeat_spec in Hin.
    exact Hin.
Qed.

Lemma slid_cells row :
  (length row <= SIZE)%nat ->
  exists a b c d,
    slid row = [a; b; c; d]
    /\ (a = 0 -> b = 0) /\ (b = 0 -> c = 0) /\ (c = 0 -> d = 0).
Proof.
  intros Hl. pose proof (slid_length row Hl) as Hlen.
  pose proof (slid_packed row 0) as H0.
  pose proof (slid_packed row 1) as H1. pose proof (slid_packed row 2) as H2.
  rewrite Hlen in H0, H1, H2. unfold SIZE in H0, H1, H2.
  destruct (length4 (slid row) Hlen) as (a & b & c & d & E).
  rewrite E in *. exists a, b, c, d.
  split; [reflexivity|]. repeat split; [apply H0|apply H1|apply H2]; lia.
Qed.

(** After the slide/merge no empty cell is left in front of a tile: for
    direction 1 the tiles of every row are at its right end; for 0 and for
    2 alike the tiles of every column are at its top; for every other
    direction the tiles of every row are at its left end. *)
Theorem slide_leaves_no_gap direction b s :
  wf b ->
  let b' := (slide_phase direction b s).1 in
  (direction = 1 ->
     forall i j, (i < SIZE)%nat -> (S j < SIZE)%nat ->
       cell b' i (S j) = 0 -> cell b' i j = 0)
  /\ (direction = 0 \/ direction = 2 ->
     forall i j, (S i < SIZE)%nat -> (j < SIZE)%nat ->
       cell b' i j = 0 -> cell b' (S i) j = 0)
  /\ (direction <> 0 -> direction <> 1 -> direction <> 2 ->
     forall i j, (i < SIZE)%nat -> (S j < SIZE)%nat ->
       cell b' i j = 0 -> cell b' i (S j) = 0).
Proof.
  intros Hwf b'. subst b'. rewrite slide_phase_closed by assumption. cbn [fst].
  pose proof (view_in_wf direction b Hwf) as HX.
  destruct (wf_rows _ HX) as (r0 & r1 & r2 & r3 & E & H0 & H1 & H2 & H3).
  rewrite E. clear E HX. cbn [map].
  assert (L0 : (length r0 <= SIZE)%nat) by lia.
  assert (L1 : (length r1 <= SIZE)%nat) by lia.
  assert (L2 : (length r2 <= SIZE)%nat) by lia.
  assert (L3 : (length r3 <= SIZE)%nat) by lia.
  destruct (slid_cells r0 L0) as (a0 & a1 & a2 & a3 & -> & ? & ? & ?).
  destruct (slid_cells r1 L1) as (b0 & b1 & b2 & b3 & -> & ? & ? & ?).
  destruct (slid_cells r2 L2) as (c0 & c1 & c2 & c3 & -> & ? & ? & ?).
  destruct (slid_cells r3 L3) as (d0 & d1 & d2 & d3 & -> & ? & ? & ?).
  clear H0 H1 H2 H3 L0 L1 L2 L3 Hwf.
  unfold view_out, SIZE.
  split; [|split].
  - intros ->. cbn [Z.eqb Pos.eqb]. intros i j Hi Hj.
    destruct i as [|[|[|[|i]]]]; [| | | |exfalso; clear -Hi; lia];
      (destruct j as [|[|[|j]]]; [| | |exfalso; clear -Hj; lia]);
      unfold cell; cbn [lookup_total list_lookup_total]; assumption.
  - intros [-> | ->]; cbn [Z.eqb Pos.eqb]; intros i j Hi Hj;
      (destruct i as [|[|[|i]]]; [| | |exfalso; clear -Hi; lia]);
      (destruct j as [|[|[|[|j]]]]; [| | | |exfalso; clear -Hj; lia]);
      unfold cell; cbn [lookup_total list_lookup_total]; assumption.
  - intros N0 N1 N2. apply Z.eqb_neq in N0, N1, N2. rewrite N0, N1, N2.
    intros i j Hi Hj.
    destruct i as [|[|[|[|i]]]]; [| | | |exfalso; clear -Hi; lia];
      (destruct j as [|[|[|j]]]; [| | |exfalso; clear -Hj; lia]);
      unfold cell; cbn [lookup_total list_lookup_total]; assumption.
Qed.

Lemma slide_leaves_no_gap_witness :
  let b := [[0; 2; 0; 2]; [0; 0; 4; 0]; [8; 0; 0; 0]; [0; 0; 0; 0]] in
  (slide_phase 1 b 0).1 = [[0; 0; 0; 4]; [0; 0; 0; 4]; [0; 0; 0; 8]; [0; 0; 0; 0]]
  /\ (cell (slide_phase 1 b 0).1 0 3 = 0 -> cell (slide_phase 1 b 0).1 0 2 = 0).
Proof.
  intros b. split; [reflexivity|].
  assert (Hwf : wf b) by (repeat constructor).
  refine (proj1 (slide_leaves_no_gap 1 b 0 Hwf) eq_refl 0%nat 2%nat _ _);
    unfold SIZE; lia.
Defined.

(** ** Boards on which no move does anything *)

Lemma slid_single a : a <> 0 -> slid [a; 0; 0; 0] = [a; 0; 0; 0].
Proof.
  intros Ha. apply Z.eqb_neq in Ha.
  assert (H1 : non_zeros [a] = [a])
    by (rewrite non_zeros_cons, Ha; reflexivity).
  assert (H : non_zeros [a; 0; 0; 0] = [a])
    by (rewrite non_zeros_cons, Ha; exact (f_equal (cons a) eq_refl)).
  unfold slid. rewrite H. cbn [pair_up]. rewrite H1. reflexivity.
Qed.

Lemma slid_zeros4 : slid [0; 0; 0; 0] = [0; 0; 0; 0].
Proof. reflexivity. Qed.

(** A board whose top row is full, with no two equal neighbours, and
    whose other rows are empty is not game over, and yet no call of [move]
    changes it, whatever the direction: nothing slides left or right,
    nothing slides up, and direction 2 slides up as well. *)
Theorem top_row_deadlock a b c e s over direction d :
  a <> 0 -> b <> 0 -> c <> 0 -> e <> 0 -> a <> b -> b <> c -> c <> e ->
  let g := mkGame [[a; b; c; e]; [0; 0; 0; 0]; [0; 0; 0; 0]; [0; 0; 0; 0]]
                  s over in
  is_game_over (board g) = false
  /\ move direction d g = Ok (false, g).
Proof.
  intros Ha Hb Hc He Hab Hbc Hce g.
  assert (Hwf : wf (board g)) by (repeat constructor).
  split; [apply not_full_not_over; [exact Hwf|]|].
  - unfold count_nonzero. cbn [board g concat app].
    rewrite !non_zeros_cons. change (0 =? 0) with true. cbv iota.
    apply Z.eqb_neq in Ha, Hb, Hc, He. rewrite Ha, Hb, Hc, He.
    unfold SIZE. simpl. lia.
  - apply move_fixed; [exact Hwf|].
    rewrite slide_phase_closed by exact Hwf. cbn [fst board g].
    unfold view_in, view_out.
    destruct (direction =? 0); [|destruct (direction =? 1);
                                  [|destruct (direction =? 2)]];
      unfold transpose, fliplr, tabulate, cell, SIZE;
      cbn [seq map lookup_total list_lookup_total Nat.sub];
      rewrite ?slid_zeros4, ?slid_single, ?slid_fixed4 by congruence;
      reflexivity.
Qed.

Lemma top_row_deadlock_witness :
  let g0 := mkGame zeros 0 false in
  let g1 := mkGame [[2; 4; 0; 0]; [0; 0; 0; 0]; [0; 0; 0; 0]; [0; 0; 0; 0]] 0 false in
  let g2 := mkGame [[0; 4; 2; 4]; [0; 0; 0; 0]; [0; 0; 0; 0]; [0; 0; 0; 0]] 0 false in
  let g3 := mkGame [[4; 2; 4; 2]; [0; 0; 0; 0]; [0; 0; 0; 0]; [0; 0; 0; 0]] 0 false in
  reachable g3
  /\ is_game_over (board g3) = false
  /\ move 0 (mkDraw 0 true) g3 = Ok (false, g3)
  /\ move 1 (mkDraw 0 true) g3 = Ok (false, g3)
  /\ move 2 (mkDraw 0 true) g3 = Ok (false, g3)
  /\ move 3 (mkDraw 0 true) g3 = Ok (false, g3).
Proof.
  intros g0 g1 g2 g3.
  assert (H1 : reset g0 (mkDraw 0 true) (mkDraw 0 false) = Ok g1) by reflexivity.
  assert (H2 : move 1 (mkDraw 1 false) g1 = Ok (true, g2)) by reflexivity.
  assert (H3 : move 3 (mkDraw 0 true) g2 = Ok (true, g3)) by reflexivity.
  assert (Hr : reachable g3).
  { eapply reachable_move; [|exact H3].
    eapply reachable_move; [|exact H2].
    eapply reachable_reset, H1. }
  split; [exact Hr|].
  split; [exact (proj1 (top_row_deadlock 4 2 4 2 0 false 0 (mkDraw 0 true)
                          ltac:(discriminate) ltac:(discriminate)
                          ltac:(discriminate) ltac:(discriminate)
                          ltac:(discriminate) ltac:(discriminate)
                          ltac:(discriminate)))|].
  split; [exact (proj2 (top_row_deadlock 4 2 4 2 0 false 0 (mkDraw 0 true)
                          ltac:(discriminate) ltac:(discriminate)
                          ltac:(discriminate) ltac:(discriminate)
                          ltac:(discriminate) ltac:(discriminate)
                          ltac:(discriminate)))|].
  split; [exact (proj2 (top_row_deadlock 4 2 4 2 0 false 1 (mkDraw 0 true)
                          ltac:(discriminate) ltac:(discriminate)
                          ltac:(discriminate) ltac:(discriminate)
                          ltac:(discriminate) ltac:(discriminate)
                          ltac:(discriminate)))|].
  split; [exact (proj2 (top_row_deadlock 4 2 4 2 0 false 2 (mkDraw 0 true)
                          ltac:(discriminate) ltac:(discriminate)
                          ltac:(discriminate) ltac:(discriminate)
                          ltac:(discriminate) ltac:(discriminate)
                          ltac:(discriminate)))|].
  exact (proj2 (top_row_deadlock 4 2 4 2 0 false 3 (mkDraw 0 true)
                  ltac:(discriminate) ltac:(discriminate)
                  ltac:(discriminate) ltac:(discriminate)
                  ltac:(discriminate) ltac:(discriminate)
                  ltac:(discriminate))).
Defined.

(** ** The event loop *)




(** Once [game_over] is set, the loop leaves the state as it is whatever
    keys are pressed, until R is pressed or the window is closed. *)
Theorem game_over_freezes evs g :
  game_over g = true ->
  Forall (fun e => e.1.1 <> QUIT /\ e.1.1 <> KEYDOWN K_r) evs ->
  run_events evs g = Ok (Some g).
Proof.
  intros Hover. induction 1 as [|[[ev d1] d2] evs [Hq Hk] _ IH]; [reflexivity|].
  cbn [run_events fst] in *.
  assert (E : handle_event ev d1 d2 g = Ok (Some g)).
  { destruct ev as [|key|]; [congruence| |reflexivity].
    destruct key; cbn [handle_event]; rewrite ?Hover; try reflexivity.
    congruence. }
  rewrite E. cbn. exact IH.
Qed.

Lemma game_over_freezes_witness :
  let g := mkGame [[2; 4; 2; 4]; [4; 2; 4; 2]; [2; 4; 2; 4]; [4; 2; 4; 2]] 40 true in
  run_events [(KEYDOWN K_UP, mkDraw 0 true, mkDraw 0 true);
              (KEYDOWN K_LEFT, mkDraw 1 true, mkDraw 0 true);
              (KEYDOWN K_other, mkDraw 0 true, mkDraw 0 true)] g
  = Ok (Some g).
Proof.
  intros g. apply game_over_freezes; [reflexivity|].
  repeat constructor; discriminate.
Defined.

Lemma slide_phase_2_0 b s : wf b -> slide_phase 2 b s = slide_phase 0 b s.
Proof.
  intros Hwf. rewrite !slide_phase_closed by assumption.
  rewrite (view_in_2_rev b Hwf). set (X := view_in 0 b).
  assert (HX : wf X) by apply view_in_wf, Hwf.
  apply pair_equal_spec. split.
  - rewrite map_rev. apply view_out_2_rev, map_slid_wf, HX.
  - apply add_all_Permutation. apply Permutation_flat_map.
    apply Permutation_sym, Permutation_rev.
Qed.

(** In the loop the down arrow does what the up arrow does: on every state
    (of a board of the right shape) and for the same draws, the two key
    presses leave the same state. *)
Theorem down_key_is_up_key d1 d2 g :
  wf (board g) ->
  handle_event (KEYDOWN K_DOWN) d1 d2 g = handle_event (KEYDOWN K_UP) d1 d2 g.
Proof.
  intros Hwf. cbn [handle_event]. destruct (negb (game_over g)); [|reflexivity].
  unfold move. rewrite (slide_phase_2_0 _ _ Hwf). reflexivity.
Qed.

Lemma down_key_is_up_key_witness :
  let g := mkGame [[0; 0; 0; 0]; [0; 0; 0; 0]; [2; 0; 0; 0]; [2; 0; 4; 0]] 0 false in
  handle_event (KEYDOWN K_DOWN) (mkDraw 0 true) (mkDraw 0 true) g
  = handle_event (KEYDOWN K_UP) (mkDraw 0 true) (mkDraw 0 true) g
  /\ handle_event (KEYDOWN K_DOWN) (mkDraw 0 true) (mkDraw 0 true) g
     = Ok (Some (mkGame [[4; 2; 4; 0]; [0; 0; 0; 0]; [0; 0; 0; 0]; [0; 0; 0; 0]]
                        4 false)).
Proof.
  intros g. split; [|reflexivity].
  apply down_key_is_up_key. repeat constructor.
Defined.

(** ** [draw] *)

Lemma COLORS_2048 : COLORS !! (inl 2048 : Z + string) = Some (237, 194, 46).
Proof. vm_compute. reflexivity. Qed.

Lemma COLORS_text : COLORS !! (inr "text"%string : Z + string) = Some (119, 110, 101).
Proof. vm_compute. reflexivity. Qed.

Lemma COLORS_text_light :
  COLORS !! (inr "text_light"%string : Z + string) = Some (249, 246, 242).
Proof. vm_compute. reflexivity. Qed.

Lemma COLORS_background :
  COLORS !! (inr "background"%string : Z + string) = Some (187, 173, 160).
Proof. vm_compute. reflexivity. Qed.

Lemma tile_color_total value :
  exists c, tile_color value = Some c
            /\ (COLORS !! (inl value : Z + string) = None -> c = (237, 194, 46)).
Proof.
  unfold tile_color. case_bool_decide as H.
  - destruct H as [c Hc]. exists c. split; [exact Hc|]. congruence.
  - exists (237, 194, 46). split; [apply COLORS_2048|reflexivity].
Qed.

Lemma draw_cell_ops b ij :
  exists ops, draw_cell b ij = Some ops
              /\ rects ops = [tile_rect ij]
              /\ labels ops = cell_label b ij
              /\ overlays ops = 0%nat.
Proof.
  unfold draw_cell, cell_label.
  destruct (tile_color_total (cell b ij.1 ij.2)) as (c & -> & _). cbn.
  destruct (cell b ij.1 ij.2 =? 0); cbn [negb].
  - eexists. split; [reflexivity|]. repeat split.
  - destruct (cell b ij.1 ij.2 <=? 4);
      rewrite ?COLORS_text, ?COLORS_text_light; cbn;
      (eexists; split; [reflexivity|]; repeat split).
Qed.

Lemma rects_app o1 o2 : rects (o1 ++ o2) = rects o1 ++ rects o2.
Proof. apply flat_map_app. Qed.

Lemma labels_app o1 o2 : labels (o1 ++ o2) = labels o1 ++ labels o2.
Proof. apply flat_map_app. Qed.

Lemma overlays_app o1 o2 : overlays (o1 ++ o2) = (overlays o1 + overlays o2)%nat.
Proof. unfold overlays. rewrite flat_map_app, length_app. reflexivity. Qed.

Lemma draw_cells_ops b l :
  exists cells, mapM (draw_cell b) l = Some cells
                /\ rects (concat cells) = map tile_rect l
                /\ labels (concat cells) = flat_map (cell_label b) l
                /\ overlays (concat cells) = 0%nat.
Proof.
  induction l as [|ij l (cells & E & Hr & Hl & Ho)].
  - exists []. repeat split.
  - destruct (draw_cell_ops b ij) as (ops & E1 & Hr1 & Hl1 & Ho1).
    exists (ops :: cells). cbn [mapM]. rewrite E1, E.
    cbn [mbind option_bind mret option_ret concat].
    split; [reflexivity|].
    rewrite rects_app, labels_app, overlays_app, Hr, Hl, Ho, Hr1, Hl1, Ho1.
    repeat split.
Qed.

Lemma draw_game_over_ops m g :
  exists ops, draw_game_over m g = Some ops
              /\ rects ops = [] /\ labels ops = []
              /\ overlays ops = (if game_over g then 1 else 0)%nat.
Proof.
  unfold draw_game_over. destruct (game_over g).
  - rewrite COLORS_text. cbn. eexists. split; [reflexivity|]. repeat split.
  - exists []. repeat split.
Qed.

(** What [draw] puts on the screen, for any state. *)
Lemma draw_ops m g :
  exists ops, draw m g = Some ops
              /\ rects ops = map tile_rect coords
              /\ labels ops = flat_map (cell_label (board g)) coords
              /\ overlays ops = (if game_over g then 1 else 0)%nat
              /\ last ops = Some flip.
Proof.
  unfold draw. rewrite COLORS_background, COLORS_text_light. cbn [mbind option_bind].
  destruct (draw_cells_ops (board g) coords) as (cells & -> & Hr & Hl & Ho).
  cbn [mbind option_bind].
  destruct (draw_game_over_ops m g) as (over & -> & Hr' & Hl' & Ho').
  cbn [mbind option_bind]. eexists. split; [reflexivity|].
  rewrite !rects_app, !labels_app, !overlays_app, Hr, Hl, Ho, Hr', Hl', Ho'.
  cbn [rects labels overlays flat_map app length].
  rewrite !app_nil_r. repeat split; [lia|].
  rewrite !app_assoc.
  change (?a :: ?b :: ?c :: ?l ++ [flip]) with ((a :: b :: c :: l) ++ [flip]).
  apply last_snoc.
Qed.

(** [draw] never raises [KeyError]: every subscript of [COLORS] it makes is
    of a key the dictionary has, whatever the board holds. A cell value that
    is no key (4096, or what is no tile at all) gets the colour of 2048. *)
Theorem draw_never_fails m g :
  (exists ops, draw m g = Some ops /\ last ops = Some flip)
  /\ forall value,
       exists c, tile_color value = Some c
                 /\ (COLORS !! (inl value : Z + string) = None ->
                     Some c = COLORS !! (inl 2048 : Z + string)).
Proof.
  split.
  - destruct (draw_ops m g) as (ops & E & _ & _ & _ & Hlast). eauto.
  - intros value. destruct (tile_color_total value) as (c & E & Hc).
    exists c. split; [exact E|]. intros H. rewrite (Hc H), COLORS_2048.
    reflexivity.
Qed.

Lemma tile_rect_inside ij : In ij coords -> inside (tile_rect ij).
Proof.
  destruct ij as [i j]. unfold coords. rewrite in_prod_iff, !in_seq.
  unfold inside, tile_rect, tile_x, tile_y, HEIGHT, WIDTH, GRID_SIZE,
    GRID_MARGIN, SIZE. cbn [fst snd]. lia.
Qed.

Lemma tile_rect_separated ij ij' :
  ij <> ij' -> separated (tile_rect ij) (tile_rect ij').
Proof.
  destruct ij as [i j], ij' as [i' j']. intros Hne.
  assert (H : i <> i' \/ j <> j').
  { destruct (decide (i = i')) as [->|]; [|auto].
    destruct (decide (j = j')) as [->|]; [congruence|auto]. }
  unfold separated, tile_rect, tile_x, tile_y, GRID_SIZE, GRID_MARGIN.
  cbn [fst snd]. lia.
Qed.

Lemma coords_NoDup : NoDup coords.
Proof. unfold coords, SIZE. apply NoDup_ListNoDup. repeat constructor; cbn; intuition discriminate. Qed.

(** [draw] draws one square per cell, sixteen in all; each lies inside the
    window, a margin from its sides and below the score line, and any two
    of them are at least a margin apart. *)
Theorem draw_tiles_layout m g ops :
  draw m g = Some ops ->
  length (rects ops) = (SIZE * SIZE)%nat
  /\ Forall inside (rects ops)
  /\ forall p q r1 r2,
       rects ops !! p = Some r1 -> rects ops !! q = Some r2 -> p <> q ->
       separated r1 r2.
Proof.
  intros E. destruct (draw_ops m g) as (ops' & E' & Hr & _).
  rewrite E in E'. injection E' as <-. rewrite Hr.
  split; [reflexivity|]. split.
  - apply Forall_forall. intros r Hin.
    apply list_elem_of_fmap in Hin as (ij & -> & Hin).
    apply tile_rect_inside, list_elem_of_In, Hin.
  - intros p q r1 r2 H1 H2 Hpq.
    rewrite list_lookup_fmap in H1, H2.
    destruct (coords !! p) as [ij|] eqn:Ep; [|discriminate].
    destruct (coords !! q) as [ij'|] eqn:Eq; [|discriminate].
    cbn in H1, H2. injection H1 as <-. injection H2 as <-.
    apply tile_rect_separated. intros ->.
    apply Hpq. eapply NoDup_lookup; [apply coords_NoDup| |]; eassumption.
Qed.

Lemma draw_tiles_layout_witness :
  let m := mkMetrics (fun _ s => 10 * Z.of_nat (String.length s)) (fun _ _ => 20) in
  let g := mkGame [[2; 0; 0; 0]; [2; 0; 0; 0]; [0; 0; 0; 0]; [0; 0; 0; 4096]] 0 false in
  exists ops, draw m g = Some ops
              /\ length (rects ops) = 16%nat
              /\ rects ops !! 5%nat = Some (120, 170, 100, 100).
Proof.
  intros m g. destruct (draw m g) as [ops|] eqn:E; [|exfalso; vm_compute in E; discriminate].
  exists ops. split; [reflexivity|].
  split; [exact (proj1 (draw_tiles_layout m g ops E))|].
  vm_compute in E. injection E as <-. reflexivity.
Defined.

Lemma labels_of_values l :
  flat_map (fun v => if v =? 0 then [] else [pretty v]) l
  = map pretty (non_zeros l).
Proof.
  induction l as [|v l IH]; [reflexivity|].
  cbn [flat_map]. rewrite non_zeros_cons, IH.
  destruct (v =? 0); reflexivity.
Qed.

Lemma cells_of_coords b :
  wf b -> map (fun ij => cell b ij.1 ij.2) coords = concat b.
Proof. intros Hwf. board_cells b. reflexivity. Qed.

(** [draw] writes a number on the non-empty cells only: the labels are the
    decimal texts of the non-zero cells, row by row, so there are as many
    as tiles; and it puts the game-over overlay exactly when [game_over] is
    set. *)
Theorem draw_labels_and_overlay m g ops :
  wf (board g) -> draw m g = Some ops ->
  labels ops = map pretty (non_zeros (concat (board g)))
  /\ length (labels ops) = count_nonzero (board g)
  /\ overlays ops = (if game_over g then 1 else 0)%nat.
Proof.
  intros Hwf E. destruct (draw_ops m g) as (ops' & E' & _ & Hl & Ho & _).
  rewrite E in E'. injection E' as <-.
  assert (H : labels ops = map pretty (non_zeros (concat (board g)))).
  { rewrite Hl, <- (cells_of_coords _ Hwf), <- labels_of_values.
    generalize coords. intros l. induction l as [|ij l IH]; [reflexivity|].
    cbn [map flat_map]. rewrite IH. reflexivity. }
  split; [exact H|]. split; [|exact Ho].
  rewrite H, length_map. reflexivity.
Qed.

Lemma draw_labels_and_overlay_witness :
  let m := mkMetrics (fun _ s => 10 * Z.of_nat (String.length s)) (fun _ _ => 20) in
  let g := mkGame [[2; 0; 0; 0]; [16; 0; 0; 0]; [0; 0; 0; 0]; [0; 0; 0; 4096]] 0 false in
  exists ops, draw m g = Some ops
              /\ labels ops = ["2"; "16"; "4096"]%string.
Proof.
  intros m g. destruct (draw m g) as [ops|] eqn:E; [|exfalso; vm_compute in E; discriminate].
  exists ops. split; [reflexivity|].
  assert (Hwf : wf (board g)) by (repeat constructor).
  rewrite (proj1 (draw_labels_and_overlay m g ops Hwf E)). reflexivity.
Defined.

(** ** The number of tiles *)

Lemma pair_up_count_exact l : forall k,
  Forall (fun v => 0 < v < 2 ^ (INT_BITS - 2)) l ->
  (length (non_zeros (pair_up l)) + length (pair_trace k l) = length l
   /\ 2 * length (pair_trace k l) <= length l)%nat.
Proof.
  induction l as [| |a b r IHr IHbr] using pair_ind; intros k Hl.
  - split; reflexivity.
  - inversion Hl as [|? ? Ha _]; subst. cbn [pair_up pair_trace].
    rewrite non_zeros_cons.
    destruct (a =? 0) eqn:E; [apply Z.eqb_eq in E; lia|]. cbn. lia.
  - inversion Hl as [|? ? Ha Hl1]; subst. inversion Hl1 as [|? ? Hb Hl2]; subst.
    rewrite pair_up_cons2, pair_trace_cons2. destruct (a =? b) eqn:E.
    + apply Z.eqb_eq in E. subst b.
      assert (Hm : merged a = 2 * a).
      { unfold merged. rewrite wrap_small; unfold INT_BITS in *; simpl in *; lia. }
      destruct (IHr (S (S k)) Hl2) as [H1 H2].
      rewrite Hm, !non_zeros_cons. change (0 =? 0) with true. cbv iota.
      destruct (2 * a =? 0) eqn:E2; [apply Z.eqb_eq in E2; lia|].
      cbn [length]. lia.
    + destruct (IHbr (S k) Hl1) as [H1 H2]. rewrite non_zeros_cons.
      destruct (a =? 0) eqn:E0; [apply Z.eqb_eq in E0; lia|].
      cbn [length] in *. lia.
Qed.

Lemma slid_count_exact row :
  Forall (fun v => 0 <= v < 2 ^ (INT_BITS - 2)) row ->
  (length (non_zeros (slid row)) + length (row_merges row)
   = length (non_zeros row)
   /\ 2 * length (row_merges row) <= length (non_zeros row))%nat.
Proof.
  intros Hrow. rewrite slid_non_zeros, row_merges_closed, length_map.
  apply pair_up_count_exact, non_zeros_strict, Hrow.
Qed.

Lemma rows_count_exact X :
  Forall (Forall (fun v => 0 <= v < 2 ^ (INT_BITS - 2))) X ->
  (count_nonzero (map slid X) + length (flat_map row_merges X)
   = count_nonzero X
   /\ 2 * length (flat_map row_merges X) <= count_nonzero X)%nat.
Proof.
  unfold count_nonzero.
  induction 1 as [|row X Hrow _ [IH1 IH2]]; [split; reflexivity|].
  cbn [map concat flat_map]. rewrite !non_zeros_app, !length_app.
  destruct (slid_count_exact row Hrow). lia.
Qed.

Lemma non_zeros_length_cons v l :
  length (non_zeros (v :: l))
  = ((if (v =? 0)%Z then 0 else 1) + length (non_zeros l))%nat.
Proof. rewrite non_zeros_cons. destruct (v =? 0); reflexivity. Qed.

Lemma view_in_count_nonzero direction b :
  wf b -> count_nonzero (view_in direction b) = count_nonzero b.
Proof.
  intros Hwf. board_cells b. unfold view_in, count_nonzero.
  destruct (direction =? 0); [|destruct (direction =? 1);
                                [|destruct (direction =? 2)]];
    unfold transpose, fliplr, tabulate, cell, SIZE;
    cbn [seq map concat app lookup_total list_lookup_total Nat.sub];
    rewrite !non_zeros_length_cons; lia.
Qed.

Lemma view_out_count_nonzero direction b :
  wf b -> count_nonzero (view_out direction b) = count_nonzero b.
Proof.
  intros Hwf. board_cells b. unfold view_out, count_nonzero.
  destruct (direction =? 0); [|destruct (direction =? 1);
                                [|destruct (direction =? 2)]];
    unfold transpose, fliplr, tabulate, cell, SIZE;
    cbn [seq map concat app lookup_total list_lookup_total Nat.sub];
    rewrite !non_zeros_length_cons; lia.
Qed.

Lemma slide_phase_count direction b s :
  Inv b ->
  (count_nonzero (slide_phase direction b s).1
   + length (move_merges direction b) = count_nonzero b
   /\ 2 * length (move_merges direction b) <= count_nonzero b)%nat.
Proof.
  intros HI. pose proof HI as (Hwf & _).
  rewrite slide_phase_closed by assumption. cbn [fst].
  rewrite view_out_count_nonzero by apply map_slid_wf, view_in_wf, Hwf.
  unfold move_merges.
  rewrite <- (view_in_count_nonzero direction b Hwf).
  apply rows_count_exact, view_in_Forall; [exact Hwf|apply Inv_range, HI].
Qed.

(** From a reachable state each merge of a move takes exactly one tile off
    the board: the slide/merge leaves as many tiles as there were, less the
    number of merges, and at most half of the tiles go. *)
Theorem merges_remove_tiles direction g :
  reachable g ->
  (count_nonzero (slide_phase direction (board g) (score g)).1
   + length (move_merges direction (board g)) = count_nonzero (board g)
   /\ 2 * length (move_merges direction (board g))
      <= count_nonzero (board g))%nat.
Proof. intros Hr. apply slide_phase_count, reachable_Inv, Hr. Qed.

Lemma merges_remove_tiles_witness :
  let g := mkGame [[2; 0; 0; 0]; [2; 0; 0; 0]; [0; 0; 0; 0]; [0; 0; 0; 0]] 0 false in
  reachable g
  /\ move_merges 0 (board g) = [2]
  /\ (count_nonzero (slide_phase 0 (board g) (score g)).1 + 1
      = count_nonzero (board g))%nat.
Proof.
  intros g.
  assert (Hr : reachable g).
  { eapply (reachable_reset (mkGame zeros 0 false) (mkDraw 0 true) (mkDraw 3 true)).
    reflexivity. }
  split; [exact Hr|]. split; [reflexivity|].
  exact (proj1 (merges_remove_tiles 0 g Hr)).
Defined.

Lemma move_count direction d g moved g' :
  Inv (board g) -> (2 <= count_nonzero (board g))%nat ->
  move direction d g = Ok (moved, g') ->
  (2 <= count_nonzero (board g'))%nat.
Proof.
  intros HI Hc. pose proof HI as (Hwf & _).
  destruct (slide_phase_count direction (board g) (score g) HI) as [H1 H2].
  pose proof (slide_phase_wf direction _ (score g) Hwf) as Hwf'.
  pose proof (moved_has_empty direction (board g) (score g) Hwf) as Hm.
  unfold move.
  destruct (slide_phase direction (board g) (score g)) as [b s].
  cbn [fst] in *.
  destruct (array_equal (board g) b) eqn:Heq; cbn [negb].
  - intros H. injection H as _ <-. cbn [board].
    apply bool_decide_eq_true in Heq. congruence.
  - apply array_equal_false in Heq.
    assert (He : empty_cells b <> []) by (apply Hm; congruence).
    destruct (add_new_tile_spawns d b He)
      as (i & j & v & Hi & Hj & Hz & Hv & ->).
    cbn. intros H. injection H as _ <-. cbn [board].
    rewrite set_cell_count by (try assumption; destruct Hv; lia). lia.
Qed.

(** The board of a reachable state is never empty: it holds two tiles at
    least. *)
Theorem at_least_two_tiles g :
  reachable g -> (2 <= count_nonzero (board g))%nat.
Proof.
  intros Hr. induction Hr as [g0 d1 d2 g H|g direction d moved g' Hr IH H].
  - destruct (reset_shape _ _ _ _ H) as (_ & -> & _). lia.
  - eapply move_count; [apply reachable_Inv, Hr|exact IH|exact H].
Qed.

Lemma at_least_two_tiles_witness :
  let g := mkGame [[4; 0; 0; 0]; [0; 0; 0; 0]; [4; 0; 0; 0]; [0; 0; 0; 0]] 4 false in
  reachable g /\ (2 <= count_nonzero (board g))%nat.
Proof.
  intros g.
  assert (Hr : reachable g).
  { eapply (reachable_move
              (mkGame [[2; 0; 0; 0]; [2; 0; 0; 0]; [0; 0; 0; 0]; [0; 0; 0; 0]] 0 false)
              0 (mkDraw 7 false) true);
      [eapply (reachable_reset (mkGame zeros 0 false) (mkDraw 0 true) (mkDraw 3 true))|];
      reflexivity. }
  split; [exact Hr|exact (at_least_two_tiles g Hr)].
Defined.

(** ** [add_new_tile] on any board *)

Lemma set_cell_other b i j v i' j' :
  (i', j') <> (i, j) -> cell (set_cell b i j v) i' j' = cell b i' j'.
Proof.
  intros Hne. unfold set_cell, cell.
  destruct (decide (i = i')) as [<-|Hi].
  - destruct (decide (i < length b)%nat) as [Hlt|Hge].
    + rewrite list_lookup_total_insert, decide_True by auto.
      rewrite list_lookup_total_insert, decide_False; [reflexivity|].
      intros [-> _]. congruence.
    + rewrite list_insert_ge by lia. reflexivity.
  - rewrite list_lookup_total_insert, decide_False; [reflexivity|].
    intros [? _]. congruence.
Qed.

(** [add_new_tile] never raises. On a board with no empty cell it changes
    nothing. Otherwise it writes a 2 (when [random.random() < 0.9]) or a 4
    into one of the empty cells, the one [random.choice] takes from their
    row-by-row list, and leaves every other cell, so every tile, as it
    was. *)
Theorem add_new_tile_spec d b :
  wf b ->
  exists b',
    add_new_tile d b = Ok b'
    /\ (empty_cells b = [] -> b' = b)
    /\ (empty_cells b <> [] ->
        exists i j,
          empty_cells b !! (pick d mod length (empty_cells b))%nat = Some (i, j)
          /\ cell b i j = 0
          /\ cell b' i j = (if below_09 d then 2 else 4)
          /\ (forall i' j', (i', j') <> (i, j) -> cell b' i' j' = cell b i' j')
          /\ count_nonzero b' = S (count_nonzero b))
    /\ (forall i j, cell b i j <> 0 -> cell b' i j = cell b i j).
Proof.
  intros Hwf. destruct (empty_cells b) as [|c l] eqn:E.
  - exists b. rewrite add_new_tile_full by exact E.
    repeat split; auto. congruence.
  - assert (Hlt : (pick d mod length (c :: l) < length (c :: l))%nat)
      by (apply Nat.mod_upper_bound; discriminate).
    destruct (lookup_lt_is_Some_2 _ _ Hlt) as [[i j] Hij].
    assert (Hin : In (i, j) (empty_cells b)).
    { rewrite E. apply list_elem_of_In, list_elem_of_lookup. eauto. }
    apply empty_cells_spec in Hin. destruct Hin as (Hi & Hj & Hz).
    set (v := if below_09 d then 2 else 4).
    assert (Hadd : add_new_tile d b = Ok (set_cell b i j v)).
    { unfold add_new_tile, random_choice. rewrite E, Hij. reflexivity. }
    exists (set_cell b i j v). split; [exact Hadd|].
    split; [discriminate|]. split.
    + intros _. exists i, j. split; [exact Hij|]. split; [exact Hz|].
      split; [apply set_cell_cell; assumption|].
      split; [intros i' j' Hne; apply set_cell_other, Hne|].
      apply set_cell_count; try assumption. unfold v. destruct (below_09 d); lia.
    + intros i' j' Hne. apply set_cell_other. congruence.
Qed.

Lemma add_new_tile_spec_witness :
  let b := [[2; 4; 8; 16]; [32; 64; 128; 256]; [2; 4; 0; 16]; [32; 64; 128; 0]] in
  add_new_tile (mkDraw 5 false) b
  = Ok [[2; 4; 8; 16]; [32; 64; 128; 256]; [2; 4; 0; 16]; [32; 64; 128; 4]]
  /\ exists b', add_new_tile (mkDraw 5 false) b = Ok b'
                /\ forall i j, cell b i j <> 0 -> cell b' i j = cell b i j.
Proof.
  intros b. split; [reflexivity|].
  assert (Hwf : wf b) by (repeat constructor).
  destruct (add_new_tile_spec (mkDraw 5 false) b Hwf) as (b' & E & _ & _ & H).
  exists b'. split; [exact E|exact H].
Defined.

(** ** The score is a multiple of 4 *)

Lemma pair_trace_values l : forall k,
  Forall (fun v => In v l) (map snd (pair_trace k l)).
Proof.
  intros k. apply List.Forall_map.
  eapply List.Forall_impl; [|apply (pair_trace_joins l k)].
  intros [j v]. cbn [fst snd]. intros (_ & H & _).
  apply list_elem_of_In, list_elem_of_lookup. eauto.
Qed.

Lemma row_merges_values row : Forall (fun v => In v row /\ v <> 0) (row_merges row).
Proof.
  rewrite row_merges_closed.
  eapply List.Forall_impl; [|apply (pair_trace_values (non_zeros row) 0)].
  intros v Hv. unfold non_zeros in Hv. apply filter_In in Hv.
  destruct Hv as [Hin Hnz]. split; [exact Hin|].
  apply negb_true_iff, Z.eqb_neq in Hnz. exact Hnz.
Qed.

Lemma merges_values X :
  Forall (fun v => In v (concat X) /\ v <> 0) (flat_map row_merges X).
Proof.
  induction X as [|row X IH]; [constructor|].
  cbn [flat_map concat]. apply Forall_app. split.
  - eapply List.Forall_impl; [|apply row_merges_values].
    intros v [Hin Hnz]. split; [apply in_or_app; auto|exact Hnz].
  - eapply List.Forall_impl; [|exact IH].
    intros v [Hin Hnz]. split; [apply in_or_app; auto|exact Hnz].
Qed.

Lemma pow2_even v : pow2_or_zero v -> (2 | v).
Proof.
  intros [->|(e & He & ->)]; [exists 0; reflexivity|].
  exists (2 ^ (e - 1)).
  replace e with (Z.succ (e - 1)) at 1 by lia.
  rewrite Z.pow_succ_r by lia. lia.
Qed.

Lemma sumZ_even l : Forall (fun v => (2 | v)) l -> (2 | sumZ l).
Proof.
  induction 1 as [|v l Hv _ IH]; [exists 0; reflexivity|].
  rewrite sumZ_cons. apply Z.divide_add_r; assumption.
Qed.

Lemma move_merges_even direction b :
  wf b -> cells_pow2 b -> (2 | sumZ (move_merges direction b)).
Proof.
  intros Hwf Hp. apply sumZ_even. unfold move_merges.
  pose proof (Forall_rows_concat _ _ (view_in_Forall _ direction b Hwf Hp)) as Hc.
  rewrite List.Forall_forall in Hc.
  eapply List.Forall_impl; [|apply merges_values].
  intros v [Hin _]. apply pow2_even, Hc, Hin.
Qed.

Lemma reachable_score_4 g : reachable g -> (4 | score g).
Proof.
  induction 1 as [g0 d1 d2 g H|g direction d moved g' Hr IH H].
  - destruct (reset_shape _ _ _ _ H) as (_ & _ & -> & _). exists 0. reflexivity.
  - destruct (reachable_in_range g Hr) as [Hwf Hrange].
    rewrite (move_score _ _ _ _ _ H).
    destruct (slide_phase_score direction g Hwf Hrange) as [_ ->].
    apply Z.divide_add_r; [exact IH|].
    destruct (move_merges_even direction (board g) Hwf) as [q Hq];
      [apply (reachable_Inv g Hr)|].
    exists q. lia.
Qed.

(** The score of a reachable state is a multiple of 4: every merge joins
    two equal powers of two, 2 at least, and adds their sum. *)
Theorem score_multiple_of_4 g : reachable g -> (4 | score g).
Proof. apply reachable_score_4. Qed.

Lemma score_multiple_of_4_witness :
  let g := mkGame [[4; 0; 0; 0]; [0; 0; 0; 0]; [4; 0; 0; 0]; [0; 0; 0; 0]] 4 false in
  reachable g /\ (4 | score g).
Proof.
  intros g.
  assert (Hr : reachable g).
  { eapply (reachable_move
              (mkGame [[2; 0; 0; 0]; [2; 0; 0; 0]; [0; 0; 0; 0]; [0; 0; 0; 0]] 0 false)
              0 (mkDraw 7 false) true);
      [eapply (reachable_reset (mkGame zeros 0 false) (mkDraw 0 true) (mkDraw 3 true))|];
      reflexivity. }
  split; [exact Hr|exact (score_multiple_of_4 g Hr)].
Defined.

(** * Properties of the converter *)

(** The font size [get_font_size] returns fits: that many characters of
    the given size fit in the image both ways, and one more does not fit
    one way. A character width or height of zero raises
    [ZeroDivisionError]. *)
Theorem get_font_size_fits width height char_width char_height :
  (0 < char_width -> 0 < char_height ->
   exists s,
     CharArt.get_font_size (width, height) (char_width, char_height)
     = CharArt.Return s
     /\ s * char_width <= width /\ s * char_height <= height
     /\ (width < (s + 1) * char_width \/ height < (s + 1) * char_height))
  /\ (char_width = 0 \/ char_height = 0 ->
      CharArt.get_font_size (width, height) (char_width, char_height)
      = CharArt.Raise CharArt.ZeroDivisionError).
Proof.
  unfold CharArt.get_font_size, CharArt.floordiv. split.
  - intros Hw Hh.
    destruct (char_width =? 0) eqn:E1; [apply Z.eqb_eq in E1; lia|].
    destruct (char_height =? 0) eqn:E2; [apply Z.eqb_eq in E2; lia|].
    cbn [CharArt.bind]. eexists. split; [reflexivity|].
    pose proof (Z.mul_div_le width char_width Hw).
    pose proof (Z.mul_div_le height char_height Hh).
    pose proof (Z.mul_succ_div_gt width char_width Hw).
    pose proof (Z.mul_succ_div_gt height char_height Hh).
    destruct (Z.min_spec (width / char_width) (height / char_height))
      as [[Hlt ->]|[Hle ->]]; nia.
  - intros [-> | ->]; cbn [Z.eqb CharArt.bind]; [reflexivity|].
    destruct (char_width =? 0); reflexivity.
Qed.

Lemma get_font_size_fits_witness :
  CharArt.get_font_size (640, 480) (8, 16) = CharArt.Return 30
  /\ exists s, CharArt.get_font_size (640, 480) (8, 16) = CharArt.Return s
               /\ s * 8 <= 640.
Proof.
  split; [reflexivity|].
  destruct (proj1 (get_font_size_fits 640 480 8 16) ltac:(lia) ltac:(lia))
    as (s & E & H & _).
  exists s. split; assumption.
Defined.

Lemma char_index_range n pixel :
  1 <= n <= 256 -> 0 <= pixel -> 0 <= char_index n pixel < n.
Proof.
  intros Hn Hp. unfold char_index.
  assert (1 <= 256 / n) by (apply Z.div_le_lower_bound; lia).
  assert (0 <= pixel / (256 / n)) by (apply Z.div_pos; lia).
  lia.
Qed.

Lemma subscript_in_range {A : Type} (l : list A) k :
  0 <= k < Z.of_nat (length l) ->
  exists x, CharArt.subscript l k = CharArt.Return x
            /\ l !! Z.to_nat k = Some x.
Proof.
  intros Hk. unfold CharArt.subscript.
  destruct (k <? 0) eqn:E; [apply Z.ltb_lt in E; lia|].
  assert (H1 : (0 <=? k) = true) by (apply Z.leb_le; lia).
  assert (H2 : (k <? Z.of_nat (length l)) = true) by (apply Z.ltb_lt; lia).
  rewrite H1, H2. cbn [andb].
  destruct (lookup_lt_is_Some_2 l (Z.to_nat k)) as [x Hx]; [lia|].
  rewrite Hx. eauto.
Qed.

Lemma ascii_loop_ok char_set pixels : forall rest done characters,
  (1 <= Z.of_nat (length char_set) <= 256) ->
  Forall (fun p => 0 <= p <= 255) pixels ->
  length rest = length pixels ->
  exists chars,
    CharArt.ascii_loop char_set (256 / Z.of_nat (length char_set))
      (done ++ rest) (Z.of_nat (length done)) pixels characters done
    = CharArt.Return (characters ++ chars, done ++ rest)
    /\ Forall2 (fun p c =>
                  char_set !! Z.to_nat (char_index (Z.of_nat (length char_set)) p)
                  = Some c) pixels chars.
Proof.
  induction pixels as [|p pixels IH]; intros rest done characters Hn Hp Hlen.
  - destruct rest; [|discriminate]. exists [].
    cbn [CharArt.ascii_loop]. rewrite !app_nil_r. split; [reflexivity|constructor].
  - destruct rest as [|color rest]; [discriminate|].
    inversion Hp as [|? ? Hp0 Hp']; subst.
    cbn [CharArt.ascii_loop]. unfold CharArt.floordiv.
    assert (Hcr : 1 <= 256 / Z.of_nat (length char_set))
      by (apply Z.div_le_lower_bound; lia).
    destruct (256 / Z.of_nat (length char_set) =? 0) eqn:E;
      [apply Z.eqb_eq in E; lia|].
    cbn [CharArt.bind].
    fold (char_index (Z.of_nat (length char_set)) p).
    destruct (subscript_in_range char_set
                (char_index (Z.of_nat (length char_set)) p))
      as (ch & -> & Hch); [apply char_index_range; lia|].
    cbn [CharArt.bind].
    destruct (subscript_in_range (done ++ color :: rest) (Z.of_nat (length done)))
      as (c & -> & Hc).
    { rewrite length_app. cbn [length]. lia. }
    rewrite Nat2Z.id, list_lookup_middle in Hc by reflexivity.
    injection Hc as <-. cbn [CharArt.bind].
    destruct (IH rest (done ++ [color]) (characters ++ [ch]) Hn Hp')
      as (chars & E' & HF); [cbn in Hlen; lia|].
    exists (ch :: chars).
    rewrite length_app, Nat2Z.inj_add in E'. cbn [length] in E'.
    rewrite <- !app_assoc in E'. cbn [app] in E'.
    change (Z.of_nat 1) with 1 in E'. rewrite E'.
    split; [reflexivity|]. constructor; assumption.
Qed.

Lemma inverted_range gray :
  Forall (fun p => 0 <= p <= 255) gray ->
  Forall (fun p => 0 <= p <= 255) (map (fun p => 255 - p) gray).
Proof.
  intros H. apply List.Forall_map. eapply List.Forall_impl; [|exact H].
  simpl. intros; lia.
Qed.

(** For a colour mode of [COLOR_MODES], a character set of 1 to 256
    entries and grey pixels in 0..255 (as many as RGB pixels),
    [image_to_ascii] raises nothing and returns one character per pixel,
    each the entry [min(p // (256 // n), n - 1)] of the set for the pixel
    value [p] (inverted first, when asked), with the RGB pixels as the
    colours. *)
Theorem image_to_ascii_ok gray rgb_pixels char_set color_mode invert :
  color_mode ∈ CharArt.COLOR_MODES ->
  (1 <= length char_set <= 256)%nat ->
  Forall (fun p => 0 <= p <= 255) gray ->
  length rgb_pixels = length gray ->
  exists chars,
    CharArt.image_to_ascii gray rgb_pixels char_set color_mode invert
    = CharArt.Return (chars, rgb_pixels)
    /\ length chars = length gray
    /\ Forall (fun c => c ∈ char_set) chars
    /\ Forall2 (fun p c =>
                  char_set !! Z.to_nat (char_index (Z.of_nat (length char_set))
                                          (if invert then 255 - p else p))
                  = Some c) gray chars.
Proof.
  intros Hmode Hn Hgray Hlen. unfold CharArt.image_to_ascii.
  rewrite bool_decide_eq_true_2 by exact Hmode. cbn [negb].
  unfold CharArt.floordiv.
  destruct (Z.of_nat (length char_set) =? 0) eqn:E; [apply Z.eqb_eq in E; lia|].
  cbn [CharArt.bind].
  set (pixels := if invert then map (fun p => 255 - p) gray else gray).
  assert (Hpix : Forall (fun p => 0 <= p <= 255) pixels).
  { unfold pixels. destruct invert; [apply inverted_range|]; assumption. }
  assert (Hlen' : length rgb_pixels = length pixels).
  { unfold pixels. destruct invert; rewrite ?length_map; assumption. }
  destruct (ascii_loop_ok char_set pixels rgb_pixels [] [] ltac:(lia) Hpix Hlen')
    as (chars & Eloop & HF).
  cbn [app length] in Eloop. change (Z.of_nat 0) with 0 in Eloop.
  exists chars. split; [exact Eloop|].
  assert (Hl : length chars = length gray).
  { apply Forall2_length in HF. rewrite <- HF. unfold pixels.
    destruct invert; rewrite ?length_map; reflexivity. }
  split; [exact Hl|]. split.
  - apply Forall_forall. intros c Hc.
    apply list_elem_of_lookup in Hc as [k Hk].
    destruct (Forall2_lookup_r _ _ _ _ _ HF Hk) as (p & _ & Hp).
    apply list_elem_of_lookup. eauto.
  - unfold pixels in HF. destruct invert; [|exact HF].
    apply Forall2_fmap_l in HF. exact HF.
Qed.

Lemma image_to_ascii_ok_witness :
  CharArt.image_to_ascii [0; 100; 255] [(0, 0, 0); (9, 9, 9); (255, 255, 255)]
    CharArt.ASCII_CHARS "none" false
  = CharArt.Return (["@"; "?"; "."]%string,
                    [(0, 0, 0); (9, 9, 9); (255, 255, 255)])
  /\ exists chars,
       CharArt.image_to_ascii [0; 100; 255]
         [(0, 0, 0); (9, 9, 9); (255, 255, 255)] CharArt.ASCII_CHARS "none" false
       = CharArt.Return (chars, [(0, 0, 0); (9, 9, 9); (255, 255, 255)])
       /\ length chars = 3%nat.
Proof.
  split; [reflexivity|].
  destruct (image_to_ascii_ok [0; 100; 255]
              [(0, 0, 0); (9, 9, 9); (255, 255, 255)] CharArt.ASCII_CHARS
              "none" false) as (chars & E & Hl & _).
  - apply list_elem_of_In. cbn. tauto.
  - cbn. lia.
  - repeat constructor; lia.
  - reflexivity.
  - exists chars. split; assumption.
Defined.

(** The failures of [image_to_ascii]: a colour mode outside [COLOR_MODES]
    raises [ValueError] before anything else is looked at; an empty
    character set raises [ZeroDivisionError]; so does a set of more than 256
    characters as soon as the image has a pixel, while on an image with no
    pixel it returns two empty lists. *)
Theorem image_to_ascii_errors gray rgb_pixels char_set color_mode invert :
  (color_mode ∉ CharArt.COLOR_MODES ->
   CharArt.image_to_ascii gray rgb_pixels char_set color_mode invert
   = CharArt.Raise CharArt.ValueError)
  /\ (color_mode ∈ CharArt.COLOR_MODES -> char_set = [] ->
      CharArt.image_to_ascii gray rgb_pixels char_set color_mode invert
      = CharArt.Raise CharArt.ZeroDivisionError)
  /\ (color_mode ∈ CharArt.COLOR_MODES -> (256 < length char_set)%nat ->
      gray <> [] ->
      CharArt.image_to_ascii gray rgb_pixels char_set color_mode invert
      = CharArt.Raise CharArt.ZeroDivisionError)
  /\ (color_mode ∈ CharArt.COLOR_MODES -> (256 < length char_set)%nat ->
      gray = [] ->
      CharArt.image_to_ascii gray rgb_pixels char_set color_mode invert
      = CharArt.Return ([], [])).
Proof.
  unfold CharArt.image_to_ascii. repeat split.
  - intros H. rewrite bool_decide_eq_false_2 by exact H. reflexivity.
  - intros H ->. rewrite bool_decide_eq_true_2 by exact H. reflexivity.
  - intros H Hn Hg. rewrite bool_decide_eq_true_2 by exact H. cbn [negb].
    unfold CharArt.floordiv.
    destruct (Z.of_nat (length char_set) =? 0) eqn:E;
      [apply Z.eqb_eq in E; lia|].
    cbn [CharArt.bind].
    rewrite (Z.div_small 256 (Z.of_nat (length char_set))) by lia.
    destruct gray as [|p gray]; [congruence|].
    destruct invert; reflexivity.
  - intros H Hn ->. rewrite bool_decide_eq_true_2 by exact H. cbn [negb].
    unfold CharArt.floordiv.
    destruct (Z.of_nat (length char_set) =? 0) eqn:E;
      [apply Z.eqb_eq in E; lia|].
    destruct invert; reflexivity.
Qed.

Lemma image_to_ascii_errors_witness :
  CharArt.image_to_ascii [7] [(1, 2, 3)] CharArt.ASCII_CHARS "grey" false
  = CharArt.Raise CharArt.ValueError
  /\ CharArt.image_to_ascii [7] [(1, 2, 3)] [] "ansi" false
     = CharArt.Raise CharArt.ZeroDivisionError.
Proof.
  split.
  - apply (proj1 (image_to_ascii_errors [7] [(1, 2, 3)] CharArt.ASCII_CHARS
                    "grey" false)).
    intros H. apply list_elem_of_In in H. cbn in H. intuition discriminate.
  - apply (proj1 (proj2 (image_to_ascii_errors [7] [(1, 2, 3)] [] "ansi" false)));
      [apply list_elem_of_In; cbn; tauto|reflexivity].
Defined.

(** The mapping from brightness to characters goes through the character
    set in order: a darker pixel never gets a later character than a
    brighter one, black (0) gets the first character and white (255) the
    last. *)
Theorem char_index_monotone n :
  1 <= n <= 256 ->
  char_index n 0 = 0 /\ char_index n 255 = n - 1
  /\ forall p q, 0 <= p <= q -> char_index n p <= char_index n q.
Proof.
  intros Hn. unfold char_index.
  assert (Hcr : 1 <= 256 / n) by (apply Z.div_le_lower_bound; lia).
  repeat split.
  - rewrite Z.div_0_l by lia. lia.
  - assert (n - 1 <= 255 / (256 / n)); [|lia].
    apply Z.div_le_lower_bound; [lia|].
    pose proof (Z.mul_div_le 256 n ltac:(lia)). nia.
  - intros p q Hpq.
    assert (p / (256 / n) <= q / (256 / n)) by (apply Z.div_le_mono; lia).
    lia.
Qed.

Lemma char_index_monotone_witness :
  char_index 12 0 = 0 /\ char_index 12 255 = 11 /\ char_index 12 230 = 10.
Proof.
  destruct (char_index_monotone 12 ltac:(lia)) as (H0 & H255 & _).
  split; [exact H0|]. split; [exact H255|reflexivity].
Defined.

(** ** The text output *)

Lemma append_assoc (a b c : string) : ((a +:+ b) +:+ c = a +:+ (b +:+ c))%string.
Proof. induction a as [|x a IH]; [reflexivity|]. exact (f_equal (String x) IH). Qed.

Lemma append_empty_r (a : string) : (a +:+ "" = a)%string.
Proof. induction a as [|x a IH]; [reflexivity|]. exact (f_equal (String x) IH). Qed.

Lemma joined_cons x l : joined (x :: l) = (x +:+ joined l)%string.
Proof.
  unfold joined. destruct l as [|y l]; cbn [String.concat].
  - symmetry. apply append_empty_r.
  - reflexivity.
Qed.

Lemma joined_app l1 l2 : joined (l1 ++ l2) = (joined l1 +:+ joined l2)%string.
Proof.
  induction l1 as [|x l1 IH]; [reflexivity|].
  cbn [app]. rewrite !joined_cons, IH, append_assoc. reflexivity.
Qed.

Lemma chunks_joined (k : nat) : forall m (l : list string),
  (0 < k)%nat -> (length l <= m * k)%nat ->
  joined (map (fun j => joined (take k (drop (j * k) l))) (seq 0 m)) = joined l.
Proof.
  induction m as [|m IH]; intros l Hk Hl.
  - destruct l; [reflexivity|cbn in Hl; lia].
  - cbn [seq map]. rewrite joined_cons. cbn [Nat.mul drop].
    rewrite <- seq_shift, map_map.
    etransitivity; [|exact (f_equal joined (take_drop k l))].
    rewrite joined_app. f_equal.
    rewrite <- (IH (drop k l)); [|exact Hk|rewrite length_drop; lia].
    f_equal. apply map_ext. intros j. rewrite drop_drop.
    replace (S j * k)%nat with (k + j * k)%nat by lia. reflexivity.
Qed.

(** The plain text output cuts the characters into lines of [width]: for a
    positive width there are [ceil(n / width)] lines and, put end to end,
    they are the characters in order, none lost. A width of 0 raises
    [ValueError]; a negative width gives the empty text, silently. *)
Theorem text_lines_cover characters width :
  (0 < width ->
   exists lines,
     CharArt.text_lines characters width = CharArt.Return lines
     /\ joined lines = joined characters
     /\ Z.of_nat (length lines)
        = (Z.of_nat (length characters) + width - 1) / width)
  /\ (width = 0 ->
      CharArt.format_text characters width = CharArt.Raise CharArt.ValueError)
  /\ (width < 0 ->
      CharArt.format_text characters width = CharArt.Return ""%string).
Proof.
  unfold CharArt.format_text, CharArt.text_lines, CharArt.range_step.
  split; [|split].
  - intros Hw.
    destruct (width =? 0) eqn:E0; [apply Z.eqb_eq in E0; lia|].
    destruct (width <? 0) eqn:E1; [apply Z.ltb_lt in E1; lia|].
    cbn [CharArt.bind]. eexists. split; [reflexivity|].
    set (n := Z.of_nat (length characters)).
    assert (Hq : 0 <= (n + width - 1) / width) by (apply Z.div_pos; lia).
    split.
    + rewrite map_map.
      rewrite <- (chunks_joined (Z.to_nat width)
                    (Z.to_nat ((n + width - 1) / width)) characters).
      * unfold joined at 1 3. f_equal. apply map_ext. intros j.
        unfold CharArt.slice, joined. do 2 f_equal; [|f_equal]; nia.
      * lia.
      * assert (n <= (n + width - 1) / width * width); [|unfold n in *; nia].
        pose proof (Z.mul_succ_div_gt (n + width - 1) width Hw). nia.
    + rewrite !length_map, length_seq. lia.
  - intros ->. reflexivity.
  - intros Hw. destruct (width =? 0) eqn:E0; [apply Z.eqb_eq in E0; lia|].
    apply Z.ltb_lt in Hw. rewrite Hw. reflexivity.
Qed.

Lemma text_lines_cover_witness :
  CharArt.text_lines ["a"; "b"; "c"; "d"; "e"]%string 2
  = CharArt.Return ["ab"; "cd"; "e"]%string
  /\ exists lines,
       CharArt.text_lines ["a"; "b"; "c"; "d"; "e"]%string 2
       = CharArt.Return lines
       /\ joined lines = "abcde"%string.
Proof.
  split; [reflexivity|].
  destruct (proj1 (text_lines_cover ["a"; "b"; "c"; "d"; "e"]%string 2)
              ltac:(lia)) as (lines & E & H & _).
  exists lines. split; [exact E|exact H].
Defined.
